(** * Verification of [example/versions.py]

    The module builds the lists of software versions and the backend
    combination matrix used to generate CI jobs.  The development has
    three parts:

    - [Catalog]: the dictionary [sw_versions] and the functions that only
      read it and return freshly built lists.  They are embedded as pure
      functions in an error monad, loops as folds over the accumulator that
      the source appends to.
    - [Store]: Python list objects.  [create_combination_matrix] mutates
      its output argument, and the caller may pass the same object twice, so
      lists live in a store and arguments are references.
    - the theorems: [StoreFacts] and [Matrix] on the combination matrix,
      [CatalogFacts] on the functions that read the catalog, [Runs] on the
      catalog of the module. *)

From Stdlib Require Import ZArith String.
From stdpp Require Import base option list gmap strings.

(** ** Exceptions *)

(** The exceptions the module can raise.  [Dangling] is not a Python
    exception: it marks the use of a reference that is outside the store,
    which no Python program can produce. *)
Inductive exn :=
  | KeyError (key : string)
  | IndexError
  | TypeError
  | Dangling.

(** The name of the class of an exception, as [type(e).__name__] gives it. *)
Definition exn_class (e : exn) : string :=
  match e with
  | KeyError _ => "KeyError"
  | IndexError => "IndexError"
  | TypeError => "TypeError"
  | Dangling => "<dangling reference>"
  end.

(** [e.args]: what the exception carries. *)
Definition exn_args (e : exn) : list string :=
  match e with
  | KeyError key => [key]
  | _ => []
  end.

(** Functions that touch no shared object return a value or raise. *)
Inductive result (A : Type) :=
  | Return (a : A)
  | Raised (e : exn).
Arguments Return {A} a.
Arguments Raised {A} e.

#[global] Instance result_ret : MRet result := @Return.
#[global] Instance result_bind : MBind result := λ A B k c,
  match c with
  | Return a => k a
  | Raised e => Raised e
  end.

(** [for x in xs: acc = body(x, acc)], where the body may raise. *)
Fixpoint for_each {A S : Type} (xs : list A) (body : A → S → result S) (acc : S)
    : result S :=
  match xs with
  | [] => Return acc
  | x :: xs => acc' ← body x acc; for_each xs body acc'
  end.

(** * The version catalog and the functions that read it *)

(** The names [versions.py] imports from [alpaka_job_coverage.globals] and
    [example_globals].  Their values are not part of the module. *)
Class Globals := {
  GCC : string;
  CLANG : string;
  NVCC : string;
  HIPCC : string;
  CLANG_CUDA : string;
  BACKENDS : string;
  UBUNTU : string;
  CMAKE : string;
  BOOST : string;
  ALPAKA : string;
  CXX_STANDARD : string;
  ALPAKA_ACC_CPU_B_SEQ_T_SEQ_ENABLE : string;
  ALPAKA_ACC_CPU_B_OMP2_T_SEQ_ENABLE : string;
  ALPAKA_ACC_GPU_CUDA_ENABLE : string;
  ALPAKA_ACC_GPU_HIP_ENABLE : string;
  ON : string;
  OFF : string;
}.

(** A dictionary display [{k1: v1, k2: v2, ...}]: the items are inserted
    from left to right, a later item replacing an earlier one with an equal
    key. *)
Definition dict_display {V : Type} (items : list (string * V)) : gmap string V :=
  foldl (λ d item, <[item.1 := item.2]> d) ∅ items.

(** [d[key]] *)
Definition dict_getitem {V : Type} (d : gmap string V) (key : string) : result V :=
  match d !! key with
  | Some v => Return v
  | None => Raised (KeyError key)
  end.

Module Catalog.
Section with_globals.
Context `{G : Globals}.

Definition gcc_versions : list string := ["5"; "6"; "7"; "8"; "9"; "10"; "11"].
Definition clang_versions : list string :=
  ["6.0"; "7"; "8"; "9"; "10"; "11"; "12"; "13"; "14"; "15"].
Definition nvcc_versions : list string :=
  ["10.0"; "11.0"; "11.1"; "11.2"; "11.3"; "11.4"; "11.5"; "11.6"].
Definition hipcc_versions : list string := ["4.3"; "4.5"; "5.0"; "5.1"].
Definition backend_names : list string :=
  [ ALPAKA_ACC_CPU_B_SEQ_T_SEQ_ENABLE;
    ALPAKA_ACC_CPU_B_OMP2_T_SEQ_ENABLE;
    ALPAKA_ACC_GPU_CUDA_ENABLE;
    ALPAKA_ACC_GPU_HIP_ENABLE ].

(** [versions.py], lines 10-34. *)
Definition sw_versions : gmap string (list string) :=
  dict_display
    [ (GCC, gcc_versions);
      (CLANG, clang_versions);
      (NVCC, nvcc_versions);
      (HIPCC, hipcc_versions);
      (BACKENDS, backend_names);
      (UBUNTU, ["18.04"; "20.04"]);
      (CMAKE, ["3.18.6"; "3.19.8"; "3.20.6"; "3.21.6"; "3.22.3"]);
      (BOOST, ["1.66.0"; "1.67.0"; "1.74.0"; "1.75.0"; "1.76.0"; "1.77.0"; "1.78.0"]);
      (ALPAKA, ["0.6.0"; "0.6.1"; "0.7.0"; "0.8.0"; "0.9.0"; "develop"]);
      (CXX_STANDARD, ["14"; "17"; "20"]) ].

(** [versions.py], lines 37-56. *)
Definition get_compiler_versions (clang_cuda : bool) : result (list (string * string)) :=
  for_each [GCC; CLANG; NVCC; HIPCC] (λ compiler_name compilers,
    versions ← dict_getitem sw_versions compiler_name;
    mret (foldl (λ compilers version,
            let compilers := compilers ++ [(compiler_name, version)] in
            if clang_cuda && bool_decide (compiler_name = CLANG)
            then compilers ++ [(CLANG_CUDA, version)]
            else compilers)
          compilers versions))
    [].

(** [versions.py], lines 59-87. *)
Definition get_backend_versions : result (list (list (string * string))) :=
  names ← dict_getitem sw_versions BACKENDS;
  for_each names (λ backend_name backends,
    let backend_list := [(backend_name, OFF)] in
    backend_list ←
      (if bool_decide (backend_name = ALPAKA_ACC_GPU_CUDA_ENABLE) then
         versions ← dict_getitem sw_versions NVCC;
         mret (foldl (λ backend_list version, backend_list ++ [(backend_name, version)])
                 backend_list versions)
       else if bool_decide (backend_name = ALPAKA_ACC_GPU_HIP_ENABLE) then
         versions ← dict_getitem sw_versions HIPCC;
         mret (foldl (λ backend_list version, backend_list ++ [(backend_name, version)])
                 backend_list versions)
       else mret (backend_list ++ [(backend_name, ON)]));
    mret (backends ++ [backend_list]))
    [].

(** [versions.py], lines 130-151. *)
Definition get_backend_single_matrix : result (list (list (string * string))) :=
  let combination_matrix :=
    [] ++ [[ (ALPAKA_ACC_CPU_B_SEQ_T_SEQ_ENABLE, ON);
             (ALPAKA_ACC_CPU_B_OMP2_T_SEQ_ENABLE, ON) ]] in
  cuda_versions ← dict_getitem sw_versions NVCC;
  let combination_matrix :=
    foldl (λ combination_matrix cuda_version,
             combination_matrix ++ [[(ALPAKA_ACC_GPU_CUDA_ENABLE, cuda_version)]])
          combination_matrix cuda_versions in
  rocm_versions ← dict_getitem sw_versions HIPCC;
  let combination_matrix :=
    foldl (λ combination_matrix rocm_version,
             combination_matrix ++ [[(ALPAKA_ACC_GPU_HIP_ENABLE, rocm_version)]])
          combination_matrix rocm_versions in
  mret combination_matrix.

(** [versions.py], lines 154-168. *)
Definition get_sw_tuple_list (name : string) : result (list (string * string)) :=
  versions ← dict_getitem sw_versions name;
  mret (foldl (λ tuple_list version, tuple_list ++ [(name, version)]) [] versions).

(** In [compilers], an entry of [CLANG] is followed by the entry of
    [CLANG_CUDA] for the same version. *)
Definition clang_cuda_follows (compilers : list (string * string)) : Prop :=
  ∀ i v, compilers !! i = Some (CLANG, v) → compilers !! S i = Some (CLANG_CUDA, v).

End with_globals.
End Catalog.

(** Values for the imported names, to run the functions on: every name
    stands for itself, so that the names are pairwise distinct. *)
Definition example_globals : Globals := {|
  GCC := "GCC";
  CLANG := "CLANG";
  NVCC := "NVCC";
  HIPCC := "HIPCC";
  CLANG_CUDA := "CLANG_CUDA";
  BACKENDS := "BACKENDS";
  UBUNTU := "UBUNTU";
  CMAKE := "CMAKE";
  BOOST := "BOOST";
  ALPAKA := "ALPAKA";
  CXX_STANDARD := "CXX_STANDARD";
  ALPAKA_ACC_CPU_B_SEQ_T_SEQ_ENABLE := "ALPAKA_ACC_CPU_B_SEQ_T_SEQ_ENABLE";
  ALPAKA_ACC_CPU_B_OMP2_T_SEQ_ENABLE := "ALPAKA_ACC_CPU_B_OMP2_T_SEQ_ENABLE";
  ALPAKA_ACC_GPU_CUDA_ENABLE := "ALPAKA_ACC_GPU_CUDA_ENABLE";
  ALPAKA_ACC_GPU_HIP_ENABLE := "ALPAKA_ACC_GPU_HIP_ENABLE";
  ON := "ON";
  OFF := "OFF";
|}.

(** What [get_backend_versions] returns for these values. *)
Definition example_rows : list (list (string * string)) :=
  Eval vm_compute in
    match Catalog.get_backend_versions (G := example_globals) with
    | Return backends => backends
    | Raised _ => []
    end.

(** * Python list objects *)

Module Store.

(** A reference to a list object. *)
Abbreviation loc := nat (only parsing).

(** What a list holds: a [(name, version)] tuple, immutable and hence kept
    by value, or a reference to another list. *)
Inductive value :=
  | VTuple (name version : string)
  | VList (r : loc).

#[global] Instance value_eq_dec : EqDecision value.
Proof. solve_decision. Defined.

(** The store: the list objects allocated so far, the reference being the
    position.  Objects are never freed. *)
Abbreviation heap := (list (list value)) (only parsing).

Inductive outcome (A : Type) :=
  | Ok (a : A)
  | Raise (e : exn)
  | Timeout.
Arguments Ok {A} a.
Arguments Raise {A} e.
Arguments Timeout {A}.

(** Computations on the store.  A raised exception leaves the store as it
    is at that point: nothing is rolled back. *)
Definition M (A : Type) := heap → outcome A * heap.

Definition ret {A} (a : A) : M A := λ h, (Ok a, h).
Definition raise {A} (e : exn) : M A := λ h, (Raise e, h).
Definition timeout {A} : M A := λ h, (Timeout, h).
Definition bind {A B} (c : M A) (k : A → M B) : M B :=
  λ h, match c h with
       | (Ok a, h') => k a h'
       | (Raise e, h') => (Raise e, h')
       | (Timeout, h') => (Timeout, h')
       end.

#[global] Instance M_ret : MRet M := @ret.
#[global] Instance M_bind : MBind M := λ A B k c, bind c k.

(** [[...]] or [l[:]]: a new list object. *)
Definition alloc (l : list value) : M loc := λ h, (Ok (length h), h ++ [l]).

(** The contents of a list object. *)
Definition deref (r : loc) : M (list value) :=
  λ h, match h !! r with
       | Some l => (Ok l, h)
       | None => (Raise Dangling, h)
       end.

Definition store (r : loc) (l : list value) : M unit :=
  λ h, (Ok tt, <[r:=l]> h).

(** [len(r)] *)
Definition py_len (r : loc) : M Z :=
  l ← deref r; mret (Z.of_nat (length l)).

(** Python's subscript on a list: a negative index counts from the end. *)
Definition subscript (l : list value) (i : Z) : option value :=
  if decide (0 ≤ i)%Z then l !! Z.to_nat i
  else if decide (0 ≤ Z.of_nat (length l) + i)%Z
       then l !! Z.to_nat (Z.of_nat (length l) + i)
       else None.

(** [r[i]] *)
Definition py_getitem (r : loc) (i : Z) : M value :=
  l ← deref r;
  match subscript l i with
  | Some v => mret v
  | None => raise IndexError
  end.

(** [r.append(v)] *)
Definition py_append (r : loc) (v : value) : M unit :=
  l ← deref r; store r (l ++ [v]).

(** [r[:]] *)
Definition py_copy (r : loc) : M loc :=
  l ← deref r; alloc l.

(** [for x in r: body(x)].  The iterator keeps the list object and a
    position, and reads the object again at every step, so that it sees what
    the body appends to it. *)
Fixpoint for_in (fuel : nat) (body : value → M unit) (r : loc) (i : nat) : M unit :=
  match fuel with
  | O => timeout
  | S fuel =>
      l ← deref r;
      match l !! i with
      | None => mret tt
      | Some x => body x;; for_in fuel body r (S i)
      end
  end.

(** [versions.py], lines 104-127.  The arguments are the references the
    caller passes; [@typechecked] rejects an [input_list] whose items are
    not lists. *)
Fixpoint create_combination_matrix (fuel : nat) (index : Z)
    (current_combination input_list combination_matrix : loc) : M unit :=
  match fuel with
  | O => timeout
  | S fuel =>
      n ← py_len input_list;
      if decide (index < n)%Z then
        item ← py_getitem input_list index;
        match item with
        | VList axis =>
            for_in fuel (λ version,
              current_combination_copy ← py_copy current_combination;
              py_append current_combination_copy version;;
              create_combination_matrix fuel (index + 1)%Z
                current_combination_copy input_list combination_matrix)
              axis 0
        | VTuple _ _ => raise TypeError
        end
      else py_append combination_matrix (VList current_combination)
  end.

(** One pass through the body of the loop of [create_combination_matrix],
    as a function of the store: the copy is the next free reference. *)
Definition branch (fuel : nat) (index : Z) (cc il cm : loc) (version : value)
    : M unit :=
  λ h, match h !! cc with
       | Some c =>
           create_combination_matrix fuel (index + 1)%Z (length h) il cm
             (<[length h := c ++ [version]]> (h ++ [c]))
       | None => (Raise Dangling, h)
       end.

(** The tuples of a list, as values. *)
Definition tuples (row : list (string * string)) : list value :=
  (λ entry, VTuple entry.1 entry.2) <$> row.

(** The list of lists that [get_backend_versions] has built, as objects in
    the store: each inner list is made and appended to the outer list
    [backends]. *)
Fixpoint store_rows (backends : loc) (rows : list (list (string * string)))
    : M unit :=
  match rows with
  | [] => mret tt
  | row :: rows =>
      backend_list ← alloc (tuples row);
      py_append backends (VList backend_list);;
      store_rows backends rows
  end.

(** [versions.py], lines 90-101.  The arguments of the call are evaluated
    from left to right: the empty partial combination is made before
    [get_backend_versions] runs and makes its lists. *)
Definition get_backend_combination_matrix `{Globals} (fuel : nat) : M loc :=
  combination_matrix ← alloc [];
  current_combination ← alloc [];
  match Catalog.get_backend_versions with
  | Return rows =>
      backends ← alloc [];
      store_rows backends rows;;
      create_combination_matrix fuel 0 current_combination backends
        combination_matrix;;
      mret combination_matrix
  | Raised e => raise e
  end.

(** The list objects a matrix refers to, read back from the store: [None]
    if the matrix or one of its items is not a list object. *)
Definition read_list (h : heap) (v : value) : option (list value) :=
  match v with
  | VList r => h !! r
  | VTuple _ _ => None
  end.

Definition read_matrix (h : heap) (combination_matrix : loc) : option (list (list value)) :=
  l ← h !! combination_matrix; mapM (read_list h) l.

(** Fuel that suffices for a call on the given axes. *)
Fixpoint fuel_for (axes : list (list value)) : nat :=
  match axes with
  | [] => 1
  | axis :: axes => S (S (length axis) `max` fuel_for axes)
  end.

(** What a call may do to the store: allocate, and append to the output
    list; every other object that existed before is left as it was. *)
Definition grows (combination_matrix : loc) (h h' : heap) : Prop :=
  length h ≤ length h' ∧
  (∀ r, r ≠ combination_matrix → r < length h → h' !! r = h !! r) ∧
  (∀ m, h !! combination_matrix = Some m →
        ∃ new, h' !! combination_matrix = Some (m ++ new)).

(** [input_list] is a list of list objects, whose contents are [axes]. *)
Definition holds_axes (h : heap) (input_list : loc) (rs : list loc)
    (axes : list (list value)) : Prop :=
  h !! input_list = Some (VList <$> rs) ∧
  Forall2 (λ r axis, h !! r = Some axis) rs axes.

(** A call on separate objects: [input_list] holds [axes], the partial
    combination holds [c], the output list holds [m], and the output list
    is neither the partial combination, nor [input_list], nor an axis. *)
Definition separate_call (h : heap) (cc il cm : loc) (rs : list loc)
    (axes : list (list value)) (c m : list value) : Prop :=
  holds_axes h il rs axes ∧ h !! cc = Some c ∧ h !! cm = Some m ∧
  cm ≠ cc ∧ cm ≠ il ∧ cm ∉ rs.

(** Two small stores to run calls on.  In both, object 0 is an
    [input_list] of two axes, the objects 1 and 2, and object 3 is an empty
    partial combination.  Object 4, the output list, is empty in the
    first; in the second it refers to object 5, a combination made
    earlier. *)
Definition example_axes : list (list value) :=
  [ [VTuple "seq" "off"; VTuple "seq" "on"];
    [VTuple "cuda" "off"; VTuple "cuda" "11.0"; VTuple "cuda" "11.1"] ].

Definition example_heap : heap :=
  [[VList 1; VList 2]] ++ example_axes ++ [[]; []].

Definition example_heap_filled : heap :=
  [[VList 1; VList 2]] ++ example_axes ++ [[]; [VList 5]; [VTuple "hip" "4.3"]].

(** A store in which the list of axes is also passed as the output list:
    object 0 is both, object 1 the only axis, object 2 the empty partial
    combination. *)
Definition example_heap_aliased : heap :=
  [[VList 1]; [VTuple "seq" "off"; VTuple "seq" "on"]; []].

(** The output list is [m] followed by references to list objects, none of
    them the output list itself, that hold [c] extended by each of
    [combos] in turn. *)
Definition emitted (combination_matrix : loc) (c : list value)
    (combos : list (list value)) (m : list value) (h' : heap) : Prop :=
  ∃ ls, h' !! combination_matrix = Some (m ++ (VList <$> ls)) ∧
        Forall2 (λ l combo, l ≠ combination_matrix ∧ h' !! l = Some (c ++ combo))
                ls combos.

End Store.

(** The enumeration the specification asks for: nested iteration, the
    outermost loop over the first axis, each combination taking its i-th
    element from the i-th axis. *)
Fixpoint nested_iteration {A : Type} (axes : list (list A)) : list (list A) :=
  match axes with
  | [] => [[]]
  | axis :: axes => x ← axis; (x ::.) <$> nested_iteration axes
  end.

(** The product of the lengths of the axes. *)
Definition product_of_lengths {A : Type} (axes : list (list A)) : nat :=
  foldr (λ axis n, length axis * n) 1 axes.

Module Calls.
Import Store.

(** The axes a call iterates over, by its [index]: from position [index]
    on when it is not negative; when it is negative and within the list, the
    subscript counts from the end, so the last [-index] axes come first and
    then, from index 0, all axes; [None] when the subscript is out of
    range. *)
Definition axes_from (axes : list (list value)) (index : Z)
    : option (list (list value)) :=
  if decide (0 ≤ index)%Z then Some (drop (Z.to_nat index) axes)
  else if decide (0 ≤ Z.of_nat (length axes) + index)%Z
       then Some (drop (Z.to_nat (Z.of_nat (length axes) + index)) axes ++ axes)
       else None.

(** As [emitted], and the lists appended are pairwise different objects;
    they are objects made by the call, which the store [h] before the call
    does not have, unless there is no axis to iterate over: then the one
    list appended is the partial combination [cc] itself. *)
Definition emitted_fresh (cm cc : loc) (c : list value)
    (rest : list (list value)) (m : list value) (h h' : heap) : Prop :=
  ∃ ls, h' !! cm = Some (m ++ (VList <$> ls)) ∧
        Forall2 (λ l combo, l ≠ cm ∧ h' !! l = Some (c ++ combo))
                ls (nested_iteration rest) ∧
        NoDup ls ∧
        ∀ l, l ∈ ls → if rest is [] then l = cc else length h ≤ l.

End Calls.

(** * The store discipline of [create_combination_matrix] *)

Module StoreFacts.
Import Store.

Lemma grows_refl cm h : grows cm h h.
Proof. split_and!; [lia|done|]. intros m Hm. exists []. by rewrite app_nil_r. Qed.

Lemma grows_trans cm h1 h2 h3 : grows cm h1 h2 → grows cm h2 h3 → grows cm h1 h3.
Proof.
  intros (Hl1 & Hf1 & Hc1) (Hl2 & Hf2 & Hc2). split_and!.
  - lia.
  - intros r Hr Hlt. rewrite Hf2 by lia. by apply Hf1.
  - intros m Hm. destruct (Hc1 m Hm) as [n1 Hn1].
    destruct (Hc2 _ Hn1) as [n2 Hn2]. exists (n1 ++ n2). by rewrite app_assoc.
Qed.

(** A list object created after [h] may be written freely. *)
Lemma grows_fresh cm h l l' : grows cm h (<[length h := l']> (h ++ [l])).
Proof.
  split_and!.
  - rewrite length_insert, length_app. simpl. lia.
  - intros r Hr Hlt. rewrite list_lookup_insert_ne by lia. by apply lookup_app_l.
  - intros m Hm. exists []. rewrite app_nil_r.
    pose proof (lookup_lt_Some _ _ _ Hm).
    rewrite list_lookup_insert_ne by lia. by rewrite lookup_app_l.
Qed.

Lemma grows_append cm h m v : h !! cm = Some m → grows cm h (<[cm := m ++ [v]]> h).
Proof.
  intros Hm. pose proof (lookup_lt_Some _ _ _ Hm). split_and!.
  - by rewrite length_insert.
  - intros r Hr _. by rewrite list_lookup_insert_ne.
  - intros m' Hm'. exists [v]. rewrite list_lookup_insert_eq by done. congruence.
Qed.

(** Run the primitive operations of the store monad. *)
Ltac run_prims :=
  cbv beta iota delta
    [py_len py_getitem py_append py_copy deref store alloc
     mret M_ret ret raise timeout mbind M_bind bind].

Lemma for_in_ext body body' r :
  (∀ x h, body x h = body' x h) →
  ∀ fuel i h, for_in fuel body r i h = for_in fuel body' r i h.
Proof.
  intros Hext. induction fuel as [|fuel IH]; intros i h; [done|]. simpl.
  unfold mbind, M_bind, bind, deref. destruct (h !! r) as [l|]; [|done].
  destruct (l !! i) as [x|]; [|done]. rewrite Hext.
  destruct (body' x h) as [[[]|e|] h1]; auto.
Qed.

Lemma for_in_unfold fuel body r i h :
  for_in (S fuel) body r i h =
    match h !! r with
    | Some l =>
        match l !! i with
        | Some x =>
            match body x h with
            | (Ok _, h1) => for_in fuel body r (S i) h1
            | (Raise e, h1) => (Raise e, h1)
            | (Timeout, h1) => (Timeout, h1)
            end
        | None => (Ok tt, h)
        end
    | None => (Raise Dangling, h)
    end.
Proof.
  simpl. unfold mbind, M_bind, bind, deref. destruct (h !! r) as [l|]; [|done].
  by destruct (l !! i).
Qed.

Lemma create_combination_matrix_unfold fuel index cc il cm h :
  create_combination_matrix (S fuel) index cc il cm h =
    match h !! il with
    | Some l =>
        if decide (index < Z.of_nat (length l))%Z then
          match subscript l index with
          | Some (VList axis) => for_in fuel (branch fuel index cc il cm) axis 0 h
          | Some (VTuple _ _) => (Raise TypeError, h)
          | None => (Raise IndexError, h)
          end
        else
          match h !! cm with
          | Some m => (Ok tt, <[cm := m ++ [VList cc]]> h)
          | None => (Raise Dangling, h)
          end
    | None => (Raise Dangling, h)
    end.
Proof.
  change (create_combination_matrix (S fuel) index cc il cm) with
    (n ← py_len il;
     if decide (index < n)%Z then
       item ← py_getitem il index;
       match item with
       | VList axis =>
           for_in fuel (λ version,
             copy ← py_copy cc;
             py_append copy version;;
             create_combination_matrix fuel (index + 1)%Z copy il cm) axis 0
       | VTuple _ _ => raise TypeError
       end
     else py_append cm (VList cc)).
  run_prims.
  destruct (h !! il) as [l|] eqn:Hil; [|done]. case_decide.
  - rewrite Hil. destruct (subscript l index) as [[|axis]|]; [done| |done].
    apply for_in_ext. intros x h1. unfold branch. run_prims.
    destruct (h1 !! cc) as [c|]; [|done].
    by rewrite lookup_app_r, Nat.sub_diag by lia.
  - by destruct (h !! cm).
Qed.

(** A loop preserves what its body preserves. *)
Lemma for_in_preserves (R : heap → heap → Prop) body r :
  (∀ h, R h h) → (∀ h1 h2 h3, R h1 h2 → R h2 h3 → R h1 h3) →
  (∀ x h, R h (body x h).2) →
  ∀ fuel i h, R h (for_in fuel body r i h).2.
Proof.
  intros Hrefl Htrans Hbody. induction fuel as [|fuel IH]; intros i h.
  - apply Hrefl.
  - rewrite for_in_unfold. destruct (h !! r) as [l|]; [|apply Hrefl].
    destruct (l !! i) as [x|]; [|apply Hrefl].
    specialize (Hbody x h). destruct (body x h) as [[[]|e|] h1]; simpl in *; try done.
    eapply Htrans; [done|apply IH].
Qed.

(** Whatever the arguments, whether or not they alias, and whether the call
    returns, raises or is cut off: the store only grows. *)
Lemma create_combination_matrix_grows fuel index cc il cm h :
  grows cm h (create_combination_matrix fuel index cc il cm h).2.
Proof.
  revert index cc h. induction fuel as [|fuel IH]; intros index cc h.
  - apply grows_refl.
  - rewrite create_combination_matrix_unfold.
    destruct (h !! il) as [l|] eqn:Hil; [|apply grows_refl].
    case_decide.
    + destruct (subscript l index) as [[|axis]|]; try apply grows_refl.
      apply for_in_preserves; [apply grows_refl|apply grows_trans|].
      intros x h1. unfold branch. destruct (h1 !! cc) as [c|]; [|apply grows_refl].
      eapply grows_trans; [|apply IH]. apply grows_fresh.
    + destruct (h !! cm) as [m|] eqn:Hm; [|apply grows_refl].
      by apply grows_append.
Qed.

Lemma subscript_nat l (k : nat) : subscript l (Z.of_nat k) = l !! k.
Proof. unfold subscript. case_decide; [|lia]. by rewrite Nat2Z.id. Qed.

(** A loop whose body returns, on a list object that the body leaves alone,
    returns: the rule for an invariant indexed by the position. *)
Lemma for_in_total body r xs (I : nat → heap → Prop) :
  (∀ i h, I i h → h !! r = Some xs) →
  (∀ i x h, xs !! i = Some x → I i h → ∃ h', body x h = (Ok tt, h') ∧ I (S i) h') →
  ∀ fuel i h, I i h → length xs - i < fuel →
    ∃ h', for_in fuel body r i h = (Ok tt, h') ∧ I (length xs `max` i) h'.
Proof.
  intros Hr Hbody. induction fuel as [|fuel IH]; intros i h Hi Hfuel; [lia|].
  rewrite for_in_unfold, (Hr _ _ Hi).
  destruct (xs !! i) as [x|] eqn:Hx.
  - destruct (Hbody _ _ _ Hx Hi) as (h1 & -> & Hi1).
    pose proof (lookup_lt_Some _ _ _ Hx).
    destruct (IH (S i) h1 Hi1) as (h2 & -> & Hi2); [lia|].
    exists h2. split; [done|]. by replace (length xs `max` i) with (length xs `max` S i) by lia.
  - apply lookup_ge_None in Hx. exists h. split; [done|].
    by replace (length xs `max` i) with i by lia.
Qed.

Section separated.
Context (il cm : loc) (rs : list loc) (axes : list (list value)).
Hypothesis cm_not_il : cm ≠ il.
Hypothesis cm_not_axis : cm ∉ rs.

Lemma holds_axes_grows h h' :
  holds_axes h il rs axes → grows cm h h' → holds_axes h' il rs axes.
Proof.
  intros [Hil Hrs] (_ & Hframe & _). split.
  - rewrite Hframe; eauto using lookup_lt_Some.
  - apply Forall2_same_length_lookup in Hrs as [Hlen Hrs].
    apply Forall2_same_length_lookup. split; [done|]. intros i r axis Hr Haxis.
    specialize (Hrs _ _ _ Hr Haxis). cbn beta in Hrs.
    rewrite Hframe; eauto using lookup_lt_Some.
    intros ->. eapply cm_not_axis, list_elem_of_lookup_2, Hr.
Qed.

(** Called on separate objects, with enough fuel, the function returns; it
    has appended to the output, in the order of the nested iteration over
    the axes from [k] on, one new list per combination, each the partial
    combination [c] followed by the combination. *)
Lemma create_combination_matrix_total rest :
  ∀ k cc c m h fuel,
    drop k axes = rest → holds_axes h il rs axes →
    h !! cc = Some c → cc ≠ cm → h !! cm = Some m → fuel_for rest ≤ fuel →
    ∃ h', create_combination_matrix fuel (Z.of_nat k) cc il cm h = (Ok tt, h') ∧
          grows cm h h' ∧ emitted cm c (nested_iteration rest) m h'.
Proof.
  induction rest as [|xs rest IH]; intros k cc c m h fuel Hdrop Hax Hcc Hne Hcm Hfuel;
    (destruct fuel as [|fuel]; [simpl in Hfuel; lia|]);
    pose proof Hax as [Hil Hrs]; pose proof (Forall2_length _ _ _ Hrs) as Hlen;
    rewrite create_combination_matrix_unfold, Hil, length_fmap.
  - apply drop_nil_inv in Hdrop. rewrite decide_False by lia. rewrite Hcm.
    eexists. split; [done|]. split; [by apply grows_append|].
    exists [cc]. pose proof (lookup_lt_Some _ _ _ Hcm).
    split; [by rewrite list_lookup_insert_eq|].
    repeat constructor; [done|]. by rewrite list_lookup_insert_ne, app_nil_r.
  - assert (axes !! k = Some xs) as Hxs.
    { by rewrite <-(Nat.add_0_r k), <-lookup_drop, Hdrop. }
    assert (drop (S k) axes = rest) as Hrest.
    { by rewrite <-(Nat.add_1_r k), <-drop_drop, Hdrop. }
    destruct (Forall2_lookup_r _ _ _ _ _ Hrs Hxs) as (r & Hr & Hrx).
    pose proof (lookup_lt_Some _ _ _ Hxs). pose proof (lookup_lt_Some _ _ _ Hrx).
    pose proof (lookup_lt_Some _ _ _ Hcc). pose proof (lookup_lt_Some _ _ _ Hcm).
    assert (r ≠ cm) by (intros ->; eapply cm_not_axis, list_elem_of_lookup_2, Hr).
    rewrite decide_True by lia. rewrite subscript_nat, list_lookup_fmap, Hr. simpl.
    simpl in Hfuel.
    destruct (for_in_total (branch fuel (Z.of_nat k) cc il cm) r xs
      (λ i h1, grows cm h h1 ∧
               emitted cm c (take i xs ≫= λ x, (x ::.) <$> nested_iteration rest) m h1))
      with (fuel := fuel) (i := 0) (h := h) as (h' & Hrun & Hg & Hem).
    + intros i h1 [(_ & Hframe & _) _]. by rewrite Hframe.
    + intros i x h1 Hx [Hg Hem]. unfold branch.
      pose proof Hg as (Hl & Hframe & _). rewrite Hframe, Hcc by done.
      destruct Hem as (ls & Hcm1 & Hls).
      set (h2 := <[length h1:=c ++ [x]]> (h1 ++ [c])).
      assert (grows cm h1 h2) as Hg2 by apply grows_fresh.
      assert (holds_axes h2 il rs axes) as Hax2
        by eauto using holds_axes_grows, grows_trans.
      assert (h2 !! length h1 = Some (c ++ [x])) as Hcopy.
      { unfold h2. rewrite list_lookup_insert_eq; [done|]. rewrite length_app. simpl. lia. }
      assert (h2 !! cm = Some (m ++ (VList <$> ls))) as Hcm2.
      { unfold h2. rewrite list_lookup_insert_ne by lia. by rewrite lookup_app_l by lia. }
      destruct (IH (S k) (length h1) (c ++ [x]) (m ++ (VList <$> ls)) h2 fuel)
        as (h3 & Hrun & Hg3 & Hem3); [done|done|done|lia|done|lia|].
      exists h3. split.
      { rewrite <-Hrun. f_equal. lia. }
      split; [eauto using grows_trans|].
      destruct Hem3 as (ls' & Hcm3 & Hls').
      exists (ls ++ ls'). split; [by rewrite fmap_app, app_assoc|].
      rewrite (take_S_r _ _ _ Hx), bind_app. apply Forall2_app.
      * eapply Forall2_impl; [done|]. intros l combo [? Hl']. split; [done|].
        destruct (grows_trans _ _ _ _ Hg2 Hg3) as (_ & Hf & _).
        rewrite Hf; eauto using lookup_lt_Some.
      * simpl. rewrite app_nil_r. apply Forall2_fmap_r.
        eapply Forall2_impl; [done|]. intros l combo [? Hl']. split; [done|].
        by rewrite Hl', <-app_assoc.
    + split; [apply grows_refl|]. exists []. by rewrite app_nil_r.
    + lia.
    + exists h'. split; [done|]. split; [done|].
      by rewrite Nat.max_0_r, firstn_all in Hem.
Qed.

End separated.

Lemma read_matrix_emitted cm c combos h :
  emitted cm c combos [] h → read_matrix h cm = Some ((c ++.) <$> combos).
Proof.
  intros (ls & Hcm & Hls). unfold read_matrix. rewrite Hcm. simpl.
  apply mapM_Some_2, Forall2_fmap_l, Forall2_fmap_r.
  eapply Forall2_impl; [done|]. by intros l combo [_ Hl].
Qed.

End StoreFacts.

(** * The nested iteration *)

Section nested_iteration.
Context {A : Type}.
Implicit Types (axis : list A) (axes : list (list A)) (combo : list A).

Lemma nested_iteration_cons_cons x axis axes :
  nested_iteration ((x :: axis) :: axes) =
    ((x ::.) <$> nested_iteration axes) ++ nested_iteration (axis :: axes).
Proof. done. Qed.

Lemma length_nested_iteration axes :
  length (nested_iteration axes) = product_of_lengths axes.
Proof.
  induction axes as [|axis axes IH]; [done|].
  change (product_of_lengths (axis :: axes)) with (length axis * product_of_lengths axes).
  rewrite <-IH. clear IH. induction axis as [|x axis IH]; [done|].
  rewrite nested_iteration_cons_cons, length_app, length_fmap, IH. simpl. lia.
Qed.

(** A combination takes its i-th element from the i-th axis, and every such
    selection is a combination. *)
Lemma elem_of_nested_iteration combo axes :
  combo ∈ nested_iteration axes ↔ Forall2 (∈) combo axes.
Proof.
  revert combo. induction axes as [|axis axes IH]; intros combo; simpl.
  - rewrite list_elem_of_singleton. split; [by intros ->|by inversion 1].
  - rewrite list_elem_of_bind. split.
    + intros (x & (combo' & -> & Hc)%list_elem_of_fmap & Hx).
      constructor; [done|]. by apply IH.
    + intros Hall. inversion Hall as [|x ? combo' ? Hx Hc]; subst.
      exists x. split; [|done]. apply list_elem_of_fmap. exists combo'.
      split; [done|]. by apply IH.
Qed.

Lemma nested_iteration_empty_axis axes :
  [] ∈ axes → nested_iteration axes = [].
Proof.
  intros Hin. destruct (nested_iteration axes) as [|combo combos] eqn:Heq; [done|].
  assert (combo ∈ nested_iteration axes) as Hc by (rewrite Heq; left).
  apply elem_of_nested_iteration in Hc. exfalso. clear Heq combos.
  induction Hc as [|x axis ? ? Hx ? IH]; [by apply not_elem_of_nil in Hin|].
  apply elem_of_cons in Hin as [<-|Hin]; [by apply not_elem_of_nil in Hx|by apply IH].
Qed.

Lemma NoDup_nested_iteration axes :
  Forall NoDup axes → NoDup (nested_iteration axes).
Proof.
  induction 1 as [|axis axes Haxis _ IH]; [apply NoDup_singleton|].
  induction Haxis as [|x axis Hx _ IHaxis]; [constructor|].
  rewrite nested_iteration_cons_cons. apply NoDup_app. split_and!.
  - apply (NoDup_fmap_2 _); done.
  - intros combo (combo' & -> & _)%list_elem_of_fmap
      (x' & (combo'' & [= <- _] & _)%list_elem_of_fmap & Hx')%list_elem_of_bind.
    done.
  - done.
Qed.

End nested_iteration.

(** * The combination matrix *)

Module Matrix.
Import Store StoreFacts.

(** What a call with index 0 and an empty partial combination leaves in an
    empty output list, read back from the store. *)
Lemma matrix_of_call h cc il cm rs axes fuel :
  separate_call h cc il cm rs axes [] [] → fuel_for axes ≤ fuel →
  ∃ h', create_combination_matrix fuel 0 cc il cm h = (Ok tt, h') ∧
        read_matrix h' cm = Some (nested_iteration axes).
Proof.
  intros (Hax & Hcc & Hcm & Hne & Hil & Hrs) Hfuel.
  destruct (create_combination_matrix_total il cm rs axes Hil Hrs axes 0 cc [] [] h fuel)
    as (h' & Hrun & _ & Hem); [done|done|done|done|done|done|].
  exists h'. split; [done|].
  rewrite (read_matrix_emitted _ _ _ _ Hem). f_equal.
  apply list_fmap_id.
Qed.

(** C1: called with index 0, an empty partial combination and an empty
    output list, [create_combination_matrix] returns, and the matrix has as
    many combinations as the product of the lengths of the axes; with an
    empty axis the matrix is empty. *)
Theorem matrix_length h cc il cm rs axes fuel :
  separate_call h cc il cm rs axes [] [] → fuel_for axes ≤ fuel →
  ∃ h' matrix,
    create_combination_matrix fuel 0 cc il cm h = (Ok tt, h') ∧
    read_matrix h' cm = Some matrix ∧
    length matrix = product_of_lengths axes ∧
    ([] ∈ axes → matrix = []).
Proof.
  intros Hcall Hfuel.
  destruct (matrix_of_call _ _ _ _ _ _ _ Hcall Hfuel) as (h' & Hrun & Hread).
  exists h', (nested_iteration axes).
  eauto using length_nested_iteration, nested_iteration_empty_axis.
Qed.

(** C2: the matrix is the nested iteration over the axes, the outermost
    loop over the first axis; each combination takes its i-th element from
    the i-th axis, and every such selection is in the matrix. *)
Theorem matrix_order h cc il cm rs axes fuel :
  separate_call h cc il cm rs axes [] [] → fuel_for axes ≤ fuel →
  ∃ h' matrix,
    create_combination_matrix fuel 0 cc il cm h = (Ok tt, h') ∧
    read_matrix h' cm = Some matrix ∧
    matrix = nested_iteration axes ∧
    (∀ combo, combo ∈ matrix ↔ Forall2 (∈) combo axes).
Proof.
  intros Hcall Hfuel.
  destruct (matrix_of_call _ _ _ _ _ _ _ Hcall Hfuel) as (h' & Hrun & Hread).
  exists h', (nested_iteration axes).
  eauto using elem_of_nested_iteration.
Qed.

(** C7: when no axis lists an entry twice, no combination is in the matrix
    twice, the matrix being read from the store the call leaves. *)
Theorem matrix_NoDup h cc il cm rs axes fuel :
  separate_call h cc il cm rs axes [] [] → fuel_for axes ≤ fuel →
  Forall NoDup axes →
  ∃ h' matrix,
    create_combination_matrix fuel 0 cc il cm h = (Ok tt, h') ∧
    read_matrix h' cm = Some matrix ∧
    NoDup matrix.
Proof.
  intros Hcall Hfuel Hnodup.
  destruct (matrix_of_call _ _ _ _ _ _ _ Hcall Hfuel) as (h' & Hrun & Hread).
  exists h', (nested_iteration axes).
  eauto using NoDup_nested_iteration.
Qed.

(** C8: with an empty [input_list], an empty partial combination and an
    empty output list, the matrix holds one element, the partial
    combination itself, which is empty. *)
Theorem matrix_of_no_axes h cc il cm fuel :
  h !! il = Some [] → h !! cc = Some [] → h !! cm = Some [] → cm ≠ cc →
  0 < fuel →
  ∃ h', create_combination_matrix fuel 0 cc il cm h = (Ok tt, h') ∧
        h' !! cm = Some [VList cc] ∧
        read_matrix h' cm = Some [[]].
Proof.
  intros Hil Hcc Hcm Hne Hfuel. destruct fuel as [|fuel]; [lia|].
  rewrite create_combination_matrix_unfold, Hil, Hcm. simpl.
  pose proof (lookup_lt_Some _ _ _ Hcm).
  eexists. split; [done|]. unfold read_matrix.
  rewrite list_lookup_insert_eq by done. split; [done|]. simpl.
  by rewrite list_lookup_insert_ne, Hcc.
Qed.

(** C10: the call only appends to its output list.  Whatever the arguments
    and however the call ends, the output list is then its old contents
    followed by what was appended, and the lists it referred to are as they
    were; on separate objects and with enough fuel the call returns, and
    what was appended is one new list per combination of the axes from
    [index] on, each the partial combination followed by the combination. *)
Theorem output_append_only fuel index cc il cm h m :
  h !! cm = Some m →
  (∃ new, (create_combination_matrix fuel index cc il cm h).2 !! cm = Some (m ++ new)) ∧
  (∀ r old, VList r ∈ m → r ≠ cm → h !! r = Some old →
     (create_combination_matrix fuel index cc il cm h).2 !! r = Some old) ∧
  (∀ rs axes c (k : nat),
     separate_call h cc il cm rs axes c m → index = Z.of_nat k →
     fuel_for (drop k axes) ≤ fuel →
     (create_combination_matrix fuel index cc il cm h).1 = Ok tt ∧
     emitted cm c (nested_iteration (drop k axes)) m
       (create_combination_matrix fuel index cc il cm h).2).
Proof.
  intros Hcm.
  destruct (create_combination_matrix_grows fuel index cc il cm h) as (_ & Hframe & Hout).
  split_and!.
  - by apply Hout.
  - intros r old _ Hr Hold. rewrite Hframe; eauto using lookup_lt_Some.
  - intros rs axes c k (Hax & Hcc & _ & Hne & Hil & Hrs) -> Hfuel.
    destruct (create_combination_matrix_total il cm rs axes Hil Hrs (drop k axes)
                k cc c m h fuel) as (h' & -> & _ & Hem); done.
Qed.

(** C9, for a call whose output list is another object than its
    [input_list], its partial combination and the axes: however the call
    ends, [input_list] and the axes hold what they held, and so does the
    partial combination; with enough fuel the call returns, and every list
    it has appended starts with that same partial combination, the
    branches having extended copies of it. *)
Theorem inputs_unchanged fuel index cc il cm h rs axes c m :
  separate_call h cc il cm rs axes c m →
  holds_axes (create_combination_matrix fuel index cc il cm h).2 il rs axes ∧
  (create_combination_matrix fuel index cc il cm h).2 !! cc = Some c ∧
  (∀ k : nat, index = Z.of_nat k → fuel_for (drop k axes) ≤ fuel →
     (create_combination_matrix fuel index cc il cm h).1 = Ok tt ∧
     emitted cm c (nested_iteration (drop k axes)) m
       (create_combination_matrix fuel index cc il cm h).2).
Proof.
  intros (Hax & Hcc & Hcm & Hne & Hil & Hrs).
  pose proof (create_combination_matrix_grows fuel index cc il cm h) as Hg.
  split_and!.
  - eauto using holds_axes_grows.
  - destruct Hg as (_ & Hframe & _). rewrite Hframe; eauto using lookup_lt_Some.
  - intros k -> Hfuel.
    destruct (create_combination_matrix_total il cm rs axes Hil Hrs (drop k axes)
                k cc c m h fuel) as (h' & -> & _ & Hem); done.
Qed.

(** The first example store is a call on separate objects. *)
Lemma example_separate_call :
  separate_call example_heap 3 0 4 [1; 2] example_axes [] [].
Proof.
  split_and!; try done.
  - split; [done|]. by repeat constructor.
  - by intros [[=]|[[=]|[]%not_elem_of_nil]%elem_of_cons]%elem_of_cons.
Defined.

Lemma example_separate_call_filled :
  separate_call example_heap_filled 3 0 4 [1; 2] example_axes [] [VList 5].
Proof.
  split_and!; try done.
  - split; [done|]. by repeat constructor.
  - by intros [[=]|[[=]|[]%not_elem_of_nil]%elem_of_cons]%elem_of_cons.
Defined.

Lemma matrix_length_witness :
  ∃ h' matrix,
    create_combination_matrix 6 0 3 0 4 example_heap = (Ok tt, h') ∧
    read_matrix h' 4 = Some matrix ∧
    length matrix = product_of_lengths example_axes ∧
    ([] ∈ example_axes → matrix = []).
Proof.
  apply (matrix_length example_heap 3 0 4 [1; 2] example_axes 6).
  - exact example_separate_call.
  - simpl. lia.
Defined.

Lemma matrix_order_witness :
  ∃ h' matrix,
    create_combination_matrix 6 0 3 0 4 example_heap = (Ok tt, h') ∧
    read_matrix h' 4 = Some matrix ∧
    matrix = nested_iteration example_axes ∧
    (∀ combo, combo ∈ matrix ↔ Forall2 (∈) combo example_axes).
Proof.
  apply (matrix_order example_heap 3 0 4 [1; 2] example_axes 6).
  - exact example_separate_call.
  - simpl. lia.
Defined.

Lemma matrix_NoDup_witness :
  ∃ h' matrix,
    create_combination_matrix 6 0 3 0 4 example_heap = (Ok tt, h') ∧
    read_matrix h' 4 = Some matrix ∧
    NoDup matrix.
Proof.
  apply (matrix_NoDup example_heap 3 0 4 [1; 2] example_axes 6).
  - exact example_separate_call.
  - simpl. lia.
  - compute_done.
Defined.

Lemma matrix_of_no_axes_witness :
  ∃ h', create_combination_matrix 1 0 1 0 2 [[]; []; []] = (Ok tt, h') ∧
        h' !! 2 = Some [VList 1] ∧
        read_matrix h' 2 = Some [[]].
Proof.
  apply (matrix_of_no_axes [[]; []; []] 1 0 2 1); [reflexivity..|lia|lia].
Defined.

Lemma output_append_only_witness :
  (∃ new, (create_combination_matrix 6 0 3 0 4 example_heap_filled).2 !! 4
            = Some ([VList 5] ++ new)) ∧
  (create_combination_matrix 6 0 3 0 4 example_heap_filled).2 !! 5
    = Some [VTuple "hip" "4.3"] ∧
  (create_combination_matrix 6 0 3 0 4 example_heap_filled).1 = Ok tt ∧
  emitted 4 [] (nested_iteration example_axes) [VList 5]
    (create_combination_matrix 6 0 3 0 4 example_heap_filled).2.
Proof.
  destruct (output_append_only 6 0 3 0 4 example_heap_filled [VList 5])
    as (Hnew & Hold & Hcall); [reflexivity|].
  split; [exact Hnew|]. split.
  - apply Hold; [left|lia|reflexivity].
  - apply (Hcall [1; 2] example_axes [] 0%nat).
    + exact example_separate_call_filled.
    + reflexivity.
    + simpl. lia.
Defined.

Lemma inputs_unchanged_witness :
  holds_axes (create_combination_matrix 6 0 3 0 4 example_heap_filled).2
    0 [1; 2] example_axes ∧
  (create_combination_matrix 6 0 3 0 4 example_heap_filled).2 !! 3 = Some [] ∧
  (create_combination_matrix 6 0 3 0 4 example_heap_filled).1 = Ok tt ∧
  emitted 4 [] (nested_iteration example_axes) [VList 5]
    (create_combination_matrix 6 0 3 0 4 example_heap_filled).2.
Proof.
  destruct (inputs_unchanged 6 0 3 0 4 example_heap_filled [1; 2] example_axes
              [] [VList 5] example_separate_call_filled) as (Hax & Hcc & Hcall).
  split; [exact Hax|]. split; [exact Hcc|].
  apply (Hcall 0%nat); [reflexivity|simpl; lia].
Defined.

(** C9 as it is stated fails when the list of axes is also passed as the
    output list: the call returns, and [input_list] has grown from one item
    to three. *)
Lemma input_list_changed_when_aliased :
  ∃ h', create_combination_matrix 4 0 2 0 0 example_heap_aliased = (Ok tt, h') ∧
        example_heap_aliased !! 0 = Some [VList 1] ∧
        h' !! 0 = Some [VList 1; VList 3; VList 5] ∧
        h' !! 0 ≠ example_heap_aliased !! 0.
Proof. eexists. split; [reflexivity|]. by split_and!. Qed.

End Matrix.

(** * The functions that read the catalog *)

Module CatalogFacts.
Import Catalog.

Lemma foldl_dict_is_Some {V : Type} (items : list (string * V)) (d : gmap string V) k :
  is_Some (d !! k) ∨ k ∈ items.*1 →
  is_Some (foldl (λ d item, <[item.1 := item.2]> d) d items !! k).
Proof.
  revert d. induction items as [|[k' v] items IH]; intros d; simpl.
  - intros [?|[]%not_elem_of_nil]. done.
  - intros Hk. apply IH. rewrite lookup_insert_is_Some.
    destruct (decide (k' = k)) as [->|]; [by left; left|].
    destruct Hk as [?|[?|?]%elem_of_cons]; [by left; right|done|by right].
Qed.

(** A key written in a dictionary display is in the dictionary. *)
Lemma dict_display_is_Some {V : Type} (items : list (string * V)) k :
  k ∈ items.*1 → is_Some (dict_display items !! k).
Proof. intros. apply foldl_dict_is_Some. by right. Qed.

Lemma foldl_snoc_pairs (name : string) (versions : list string) acc :
  foldl (λ acc version, acc ++ [(name, version)]) acc versions =
    acc ++ ((name,.) <$> versions).
Proof.
  revert acc. induction versions as [|v versions IH]; intros acc; simpl.
  - by rewrite app_nil_r.
  - by rewrite IH, <-app_assoc.
Qed.

Section with_globals.
Context `{G : Globals}.

Lemma sw_versions_is_Some k :
  k ∈ [GCC; CLANG; NVCC; HIPCC; BACKENDS; UBUNTU; CMAKE; BOOST; ALPAKA; CXX_STANDARD] →
  is_Some (sw_versions !! k).
Proof. intros Hk. unfold sw_versions. by apply dict_display_is_Some. Qed.

Lemma clang_cuda_follows_snoc compilers name version :
  name ≠ CLANG → clang_cuda_follows compilers →
  clang_cuda_follows (compilers ++ [(name, version)]).
Proof.
  intros Hname Hadj i v Hi.
  destruct (decide (i < length compilers)) as [Hlt|Hge].
  - rewrite lookup_app_l in Hi by done. apply Hadj in Hi.
    rewrite lookup_app_l; [done|]. eauto using lookup_lt_Some.
  - rewrite lookup_app_r in Hi by lia.
    destruct (i - length compilers) as [|n]; simpl in Hi; [|done].
    congruence.
Qed.

Lemma clang_cuda_follows_snoc2 compilers version :
  CLANG ≠ CLANG_CUDA → clang_cuda_follows compilers →
  clang_cuda_follows ((compilers ++ [(CLANG, version)]) ++ [(CLANG_CUDA, version)]).
Proof.
  intros Hname Hadj i v Hi. rewrite <-app_assoc in *. simpl in *.
  destruct (decide (i < length compilers)) as [Hlt|Hge].
  - rewrite lookup_app_l in Hi by done. apply Hadj in Hi.
    rewrite lookup_app_l; [done|]. eauto using lookup_lt_Some.
  - rewrite lookup_app_r in Hi by lia. rewrite lookup_app_r by lia.
    replace (S i - length compilers) with (S (i - length compilers)) by lia.
    destruct (i - length compilers) as [|[|n]]; simpl in *; [congruence|congruence|done].
Qed.

(** The inner loop of [get_compiler_versions]. *)
Lemma compilers_loop_follows clang_cuda name versions compilers :
  CLANG ≠ CLANG_CUDA → clang_cuda = true → clang_cuda_follows compilers →
  clang_cuda_follows
    (foldl (λ compilers version,
              let compilers := compilers ++ [(name, version)] in
              if clang_cuda && bool_decide (name = CLANG)
              then compilers ++ [(CLANG_CUDA, version)]
              else compilers)
           compilers versions).
Proof.
  intros Hne -> . revert compilers.
  induction versions as [|v versions IH]; intros compilers Hadj; [done|].
  simpl. apply IH. case_bool_decide as Hname.
  - subst name. by apply clang_cuda_follows_snoc2.
  - by apply clang_cuda_follows_snoc.
Qed.

Lemma compilers_loop_elem clang_cuda name (versions : list string)
    (compilers : list (string * string)) entry :
  entry ∈ compilers ∨ (∃ v, v ∈ versions ∧ entry = (name, v)) →
  entry ∈
    foldl (λ compilers version,
             let compilers := compilers ++ [(name, version)] in
             if clang_cuda && bool_decide (name = CLANG)
             then compilers ++ [(CLANG_CUDA, version)]
             else compilers)
          compilers versions.
Proof.
  revert compilers. induction versions as [|v versions IH]; intros compilers; simpl.
  - intros [?|(v & []%not_elem_of_nil & _)]. done.
  - intros Hin. apply IH.
    destruct Hin as [?|(v' & [->|?]%elem_of_cons & ->)].
    + left. destruct (_ && _); set_solver.
    + left. destruct (_ && _); set_solver.
    + right. eauto.
Qed.

(** C4: with [clang_cuda] true, in the list that [get_compiler_versions]
    returns every entry [(CLANG, v)] is immediately followed by
    [(CLANG_CUDA, v)], and every version of [CLANG] in the catalog has such
    a pair of entries. *)
Theorem clang_cuda_adjacent :
  CLANG ≠ CLANG_CUDA →
  ∃ compilers,
    get_compiler_versions true = Return compilers ∧
    clang_cuda_follows compilers ∧
    (∀ versions v, sw_versions !! CLANG = Some versions → v ∈ versions →
       ∃ i, compilers !! i = Some (CLANG, v) ∧
            compilers !! S i = Some (CLANG_CUDA, v)).
Proof.
  intros Hne. unfold get_compiler_versions. simpl.
  destruct (sw_versions_is_Some GCC) as [gcc Hgcc]; [set_solver|].
  destruct (sw_versions_is_Some CLANG) as [clang Hclang]; [set_solver|].
  destruct (sw_versions_is_Some NVCC) as [nvcc Hnvcc]; [set_solver|].
  destruct (sw_versions_is_Some HIPCC) as [hipcc Hhipcc]; [set_solver|].
  unfold dict_getitem. rewrite Hgcc, Hclang, Hnvcc, Hhipcc. simpl.
  eexists. split; [done|].
  assert (clang_cuda_follows []) as Hnil by (by intros i v).
  match goal with |- ?P ?l ∧ _ => assert (P l) as Hfollows end.
  { apply (compilers_loop_follows true HIPCC); [done..|].
    apply (compilers_loop_follows true NVCC); [done..|].
    apply (compilers_loop_follows true CLANG); [done..|].
    by apply (compilers_loop_follows true GCC). }
  split; [done|].
  intros versions v [= <-] Hv.
  match goal with |- ∃ i, ?l !! i = _ ∧ _ => assert ((CLANG, v) ∈ l) as Hin end.
  { apply (compilers_loop_elem true HIPCC); left.
    apply (compilers_loop_elem true NVCC); left.
    apply (compilers_loop_elem true CLANG). right. eauto. }
  apply list_elem_of_lookup in Hin as [i Hi]. exists i. split; [done|].
  by apply Hfollows.
Qed.

(** The outer loop of [get_backend_versions], from the accumulator on. *)
Lemma backends_loop nvcc hipcc names backends :
  sw_versions !! NVCC = Some nvcc → sw_versions !! HIPCC = Some hipcc →
  for_each names (λ backend_name backends,
    let backend_list := [(backend_name, OFF)] in
    backend_list ←
      (if bool_decide (backend_name = ALPAKA_ACC_GPU_CUDA_ENABLE) then
         versions ← dict_getitem sw_versions NVCC;
         mret (foldl (λ backend_list version, backend_list ++ [(backend_name, version)])
                 backend_list versions)
       else if bool_decide (backend_name = ALPAKA_ACC_GPU_HIP_ENABLE) then
         versions ← dict_getitem sw_versions HIPCC;
         mret (foldl (λ backend_list version, backend_list ++ [(backend_name, version)])
                 backend_list versions)
       else mret (backend_list ++ [(backend_name, ON)]));
    mret (backends ++ [backend_list]))
    backends =
  Return (backends ++
    ((λ b, (b, OFF) ::
           if bool_decide (b = ALPAKA_ACC_GPU_CUDA_ENABLE) then (b,.) <$> nvcc
           else if bool_decide (b = ALPAKA_ACC_GPU_HIP_ENABLE) then (b,.) <$> hipcc
           else [(b, ON)]) <$> names)).
Proof.
  intros Hnvcc Hhipcc.
  match goal with |- for_each _ ?f _ = _ => set (body := f) end.
  revert backends. induction names as [|b names IH]; intros backends; simpl.
  - by rewrite app_nil_r.
  - assert (body b backends = Return (backends ++ [(b, OFF) ::
             if bool_decide (b = ALPAKA_ACC_GPU_CUDA_ENABLE) then (b,.) <$> nvcc
             else if bool_decide (b = ALPAKA_ACC_GPU_HIP_ENABLE) then (b,.) <$> hipcc
             else [(b, ON)]])) as ->.
    { unfold body, dict_getitem. rewrite Hnvcc, Hhipcc.
      repeat case_bool_decide; simpl; by rewrite ?foldl_snoc_pairs. }
    simpl. by rewrite IH, <-app_assoc.
Qed.

(** C3: [get_backend_versions] returns one sequence per name in the
    [BACKENDS] entry of the catalog, in that order.  The sequence of a
    backend starts with [(backend, OFF)]; it goes on with the versions of
    [NVCC] for the CUDA backend, with the versions of [HIPCC] for the HIP
    backend, and with the single [(backend, ON)] for any other. *)
Theorem backend_versions_states names nvcc hipcc :
  sw_versions !! BACKENDS = Some names →
  sw_versions !! NVCC = Some nvcc →
  sw_versions !! HIPCC = Some hipcc →
  ALPAKA_ACC_GPU_CUDA_ENABLE ≠ ALPAKA_ACC_GPU_HIP_ENABLE →
  ∃ backends,
    get_backend_versions = Return backends ∧
    length backends = length names ∧
    ∀ i b, names !! i = Some b →
      ∃ states,
        backends !! i = Some ((b, OFF) :: states) ∧
        (b = ALPAKA_ACC_GPU_CUDA_ENABLE → states = (b,.) <$> nvcc) ∧
        (b = ALPAKA_ACC_GPU_HIP_ENABLE → states = (b,.) <$> hipcc) ∧
        (b ≠ ALPAKA_ACC_GPU_CUDA_ENABLE → b ≠ ALPAKA_ACC_GPU_HIP_ENABLE →
           states = [(b, ON)]).
Proof.
  intros Hnames Hnvcc Hhipcc Hne.
  assert (dict_getitem sw_versions BACKENDS = Return names) as Hgetitem.
  { unfold dict_getitem. by rewrite Hnames. }
  eexists. split.
  { unfold get_backend_versions. rewrite Hgetitem.
    exact (backends_loop nvcc hipcc names [] Hnvcc Hhipcc). }
  split; [simpl; by rewrite length_fmap|].
  intros i b Hb. simpl. rewrite list_lookup_fmap, Hb. simpl. eexists. split; [done|].
  repeat case_bool_decide; split_and!; congruence.
Qed.

(** C6: [get_backend_single_matrix] returns the combination that turns
    on the two CPU backends, then one combination per version of [NVCC],
    then one per version of [HIPCC], each of a single pair, in catalog
    order; the CPU backends turned on are the names in the [BACKENDS] entry
    other than the CUDA and the HIP backend. *)
Theorem backend_single_matrix_shape nvcc hipcc :
  sw_versions !! NVCC = Some nvcc →
  sw_versions !! HIPCC = Some hipcc →
  ∃ matrix,
    get_backend_single_matrix = Return matrix ∧
    length matrix = 1 + length nvcc + length hipcc ∧
    matrix =
      [(ALPAKA_ACC_CPU_B_SEQ_T_SEQ_ENABLE, ON); (ALPAKA_ACC_CPU_B_OMP2_T_SEQ_ENABLE, ON)]
      :: ((λ v, [(ALPAKA_ACC_GPU_CUDA_ENABLE, v)]) <$> nvcc)
      ++ ((λ v, [(ALPAKA_ACC_GPU_HIP_ENABLE, v)]) <$> hipcc) ∧
    (sw_versions !! BACKENDS = Some backend_names →
     NoDup backend_names →
     matrix !! 0 =
       Some ((., ON) <$>
               filter (λ b, b ≠ ALPAKA_ACC_GPU_CUDA_ENABLE ∧ b ≠ ALPAKA_ACC_GPU_HIP_ENABLE)
                      backend_names)).
Proof.
  intros Hnvcc Hhipcc. unfold get_backend_single_matrix, dict_getitem.
  rewrite Hnvcc, Hhipcc. simpl.
  assert (∀ (name : string) (versions : list string) acc,
    foldl (λ acc version, acc ++ [[(name, version)]]) acc versions =
      acc ++ ((λ v, [(name, v)]) <$> versions)) as Hloop.
  { intros name versions. induction versions as [|v versions IH]; intros acc; simpl.
    - by rewrite app_nil_r.
    - by rewrite IH, <-app_assoc. }
  rewrite !Hloop. eexists. split; [done|]. split_and!.
  - simpl. rewrite length_app, !length_fmap. lia.
  - by rewrite <-app_assoc.
  - intros _ Hnodup. simpl. unfold backend_names in *.
    apply NoDup_cons in Hnodup as [Hseq Hnodup].
    apply NoDup_cons in Hnodup as [Homp _].
    rewrite filter_cons_True by set_solver.
    rewrite filter_cons_True by set_solver.
    rewrite filter_cons_False by (by intros [? _]).
    rewrite filter_cons_False by (by intros [_ ?]). done.
Qed.

(** C5, with the exception the code raises: for a name that is not a key
    of the catalog, [get_sw_tuple_list] raises the [KeyError] of the
    dictionary, which carries the name; in particular it does not return an
    empty list. *)
Theorem sw_tuple_list_unknown name :
  sw_versions !! name = None →
  get_sw_tuple_list name = Raised (KeyError name) ∧
  exn_class (KeyError name) = "KeyError" ∧
  exn_args (KeyError name) = [name] ∧
  get_sw_tuple_list name ≠ Return [].
Proof.
  intros Hname. unfold get_sw_tuple_list, dict_getitem. rewrite Hname. done.
Qed.

End with_globals.

Lemma clang_cuda_adjacent_witness :
  ∃ compilers,
    get_compiler_versions (G := example_globals) true = Return compilers ∧
    clang_cuda_follows (G := example_globals) compilers ∧
    (∀ versions v,
       sw_versions (G := example_globals) !! "CLANG" = Some versions → v ∈ versions →
       ∃ i, compilers !! i = Some ("CLANG", v) ∧
            compilers !! S i = Some ("CLANG_CUDA", v)).
Proof. apply (clang_cuda_adjacent (G := example_globals)). discriminate. Defined.

Lemma backend_versions_states_witness :
  ∃ backends,
    get_backend_versions (G := example_globals) = Return backends ∧
    length backends = 4 ∧
    ∀ i b, backend_names (G := example_globals) !! i = Some b →
      ∃ states,
        backends !! i = Some ((b, "OFF") :: states) ∧
        (b = "ALPAKA_ACC_GPU_CUDA_ENABLE" → states = (b,.) <$> nvcc_versions) ∧
        (b = "ALPAKA_ACC_GPU_HIP_ENABLE" → states = (b,.) <$> hipcc_versions) ∧
        (b ≠ "ALPAKA_ACC_GPU_CUDA_ENABLE" → b ≠ "ALPAKA_ACC_GPU_HIP_ENABLE" →
           states = [(b, "ON")]).
Proof.
  apply (backend_versions_states (G := example_globals)
           backend_names nvcc_versions hipcc_versions);
    [reflexivity|reflexivity|reflexivity|discriminate].
Defined.

Lemma backend_single_matrix_shape_witness :
  ∃ matrix,
    get_backend_single_matrix (G := example_globals) = Return matrix ∧
    length matrix = 13 ∧
    matrix =
      [("ALPAKA_ACC_CPU_B_SEQ_T_SEQ_ENABLE", "ON");
       ("ALPAKA_ACC_CPU_B_OMP2_T_SEQ_ENABLE", "ON")]
      :: ((λ v, [("ALPAKA_ACC_GPU_CUDA_ENABLE", v)]) <$> nvcc_versions)
      ++ ((λ v, [("ALPAKA_ACC_GPU_HIP_ENABLE", v)]) <$> hipcc_versions).
Proof.
  destruct (backend_single_matrix_shape (G := example_globals)
              nvcc_versions hipcc_versions) as (matrix & Hrun & Hlen & Hshape & _);
    [reflexivity|reflexivity|].
  exists matrix. split; [exact Hrun|]. split; [exact Hlen|exact Hshape].
Defined.

Lemma sw_tuple_list_unknown_witness :
  get_sw_tuple_list (G := example_globals) "UNKNOWN_AXIS"
    = Raised (KeyError "UNKNOWN_AXIS") ∧
  exn_class (KeyError "UNKNOWN_AXIS") = "KeyError" ∧
  exn_args (KeyError "UNKNOWN_AXIS") = ["UNKNOWN_AXIS"] ∧
  get_sw_tuple_list (G := example_globals) "UNKNOWN_AXIS" ≠ Return [].
Proof.
  apply (sw_tuple_list_unknown (G := example_globals) "UNKNOWN_AXIS"). reflexivity.
Defined.

(** C5 as it is stated fails: the exception that the request for an
    unknown axis raises is a [KeyError], there is no [MissingAxisError]. *)
Lemma unknown_axis_is_KeyError :
  ∃ e, get_sw_tuple_list (G := example_globals) "UNKNOWN_AXIS" = Raised e ∧
       exn_class e = "KeyError" ∧
       exn_class e ≠ "MissingAxisError".
Proof. exists (KeyError "UNKNOWN_AXIS"). split; [reflexivity|]. by split. Qed.

End CatalogFacts.

(** * The functions run on the catalog of the module *)

Module Runs.
Import Catalog Store.

(** The plain projection of an axis keeps the catalog order. *)
Example sw_tuple_list_cmake :
  get_sw_tuple_list (G := example_globals) "CMAKE" =
    Return [("CMAKE", "3.18.6"); ("CMAKE", "3.19.8"); ("CMAKE", "3.20.6");
            ("CMAKE", "3.21.6"); ("CMAKE", "3.22.3")].
Proof. reflexivity. Qed.

(** The four backend axes have 2, 2, 9 and 5 states. *)
Example backend_versions_lengths :
  match get_backend_versions (G := example_globals) with
  | Return backends => Some (map (λ states, length states) backends)
  | Raised _ => None
  end = Some [2; 2; 9; 5].
Proof. vm_compute. reflexivity. Qed.

(** [get_backend_combination_matrix] returns a matrix of 2 * 2 * 9 * 5
    combinations, each of four entries. *)
Example backend_combination_matrix_size :
  match get_backend_combination_matrix (H := example_globals) 13 [] with
  | (Ok combination_matrix, h) =>
      match read_matrix h combination_matrix with
      | Some matrix =>
          Some (length matrix, forallb (λ combo, length combo =? 4) matrix)
      | None => None
      end
  | _ => None
  end = Some (180, true).
Proof. vm_compute. reflexivity. Qed.

End Runs.

(** * Calls with any index *)

Module CallFacts.
Import Store StoreFacts Calls.

Lemma axes_from_nil axes index :
  axes_from axes index = Some [] → (Z.of_nat (length axes) ≤ index)%Z.
Proof.
  unfold axes_from. repeat case_decide; intros [= Hdrop]; [|].
  - apply drop_nil_inv in Hdrop. lia.
  - apply app_eq_nil in Hdrop as [_ ->]. simpl in *. lia.
Qed.

(** With an axis to iterate over, the subscript is within the list, it
    selects that axis, and the next index iterates over the axes left. *)
Lemma axes_from_cons axes index xs rest :
  axes_from axes index = Some (xs :: rest) →
  (index < Z.of_nat (length axes))%Z ∧
  axes_from axes (index + 1) = Some rest ∧
  ∃ k : nat, axes !! k = Some xs ∧
    ∀ l : list value, length l = length axes → subscript l index = l !! k.
Proof.
  unfold axes_from, subscript. case_decide as Hsign.
  - intros [= Hdrop].
    assert (axes !! Z.to_nat index = Some xs) as Hxs.
    { by rewrite <-(Nat.add_0_r (Z.to_nat index)), <-lookup_drop, Hdrop. }
    pose proof (lookup_lt_Some _ _ _ Hxs). split; [lia|]. split.
    + rewrite decide_True by lia. f_equal.
      replace (Z.to_nat (index + 1)) with (Z.to_nat index + 1)%nat by lia.
      by rewrite <-drop_drop, Hdrop.
    + by exists (Z.to_nat index).
  - case_decide as Hrange; [|done]. intros [= Hdrop].
    set (j := Z.to_nat (Z.of_nat (length axes) + index)) in *.
    assert (j < length axes)%nat as Hj by lia.
    destruct (lookup_lt_is_Some_2 axes j Hj) as [y Hy].
    rewrite (drop_S _ _ _ Hy) in Hdrop. simplify_eq/=.
    split; [lia|]. split.
    + destruct (decide (index = -1)%Z) as [->|].
      * simpl. rewrite drop_0. f_equal.
        rewrite drop_ge; [done|]. unfold j. lia.
      * rewrite decide_False by lia. rewrite decide_True by lia. do 2 f_equal.
        f_equal. unfold j. lia.
    + exists j. split; [done|]. intros l Hl.
      rewrite Hl. by rewrite decide_True.
Qed.

Section separated.
Context (il cm : loc) (rs : list loc) (axes : list (list value)).
Hypothesis cm_not_il : cm ≠ il.
Hypothesis cm_not_axis : cm ∉ rs.

(** The call on separate objects, for any index: it returns, and has
    appended one new list per combination of the axes that [axes_from]
    gives. *)
Lemma create_combination_matrix_run rest :
  ∀ index cc c m h fuel,
    axes_from axes index = Some rest → holds_axes h il rs axes →
    h !! cc = Some c → cc ≠ cm → h !! cm = Some m → fuel_for rest ≤ fuel →
    ∃ h', create_combination_matrix fuel index cc il cm h = (Ok tt, h') ∧
          grows cm h h' ∧ emitted_fresh cm cc c rest m h h'.
Proof.
  induction rest as [|xs rest IH]; intros index cc c m h fuel Hfrom Hax Hcc Hne Hcm Hfuel;
    (destruct fuel as [|fuel]; [simpl in Hfuel; lia|]);
    pose proof Hax as [Hil Hrs]; pose proof (Forall2_length _ _ _ Hrs) as Hlen;
    rewrite create_combination_matrix_unfold, Hil, length_fmap.
  - apply axes_from_nil in Hfrom. rewrite decide_False by lia. rewrite Hcm.
    eexists. split; [done|]. split; [by apply grows_append|].
    exists [cc]. pose proof (lookup_lt_Some _ _ _ Hcm).
    split; [by rewrite list_lookup_insert_eq|]. split_and!.
    + repeat constructor; [done|]. by rewrite list_lookup_insert_ne, app_nil_r.
    + apply NoDup_singleton.
    + by intros l ->%list_elem_of_singleton.
  - apply axes_from_cons in Hfrom as (Hlt & Hnext & k & Hxs & Hsub).
    destruct (Forall2_lookup_r _ _ _ _ _ Hrs Hxs) as (r & Hr & Hrx).
    pose proof (lookup_lt_Some _ _ _ Hrx).
    pose proof (lookup_lt_Some _ _ _ Hcc). pose proof (lookup_lt_Some _ _ _ Hcm).
    assert (r ≠ cm) by (intros ->; eapply cm_not_axis, list_elem_of_lookup_2, Hr).
    rewrite decide_True by lia.
    rewrite Hsub by (by rewrite length_fmap). rewrite list_lookup_fmap, Hr. simpl.
    simpl in Hfuel.
    destruct (for_in_total (branch fuel index cc il cm) r xs
      (λ i h1, grows cm h h1 ∧ ∃ ls,
         h1 !! cm = Some (m ++ (VList <$> ls)) ∧
         Forall2 (λ l combo, l ≠ cm ∧ h1 !! l = Some (c ++ combo)) ls
           (take i xs ≫= λ x, (x ::.) <$> nested_iteration rest) ∧
         NoDup ls ∧ ∀ l, l ∈ ls → length h ≤ l))
      with (fuel := fuel) (i := 0) (h := h) as (h' & Hrun & Hg & Hem).
    + intros i h1 [(_ & Hframe & _) _]. by rewrite Hframe.
    + intros i x h1 Hx [Hg (ls & Hcm1 & Hls & Hnodup & Hfresh)]. unfold branch.
      pose proof Hg as (Hl & Hframe & _). rewrite Hframe, Hcc by done.
      set (h2 := <[length h1:=c ++ [x]]> (h1 ++ [c])).
      assert (grows cm h1 h2) as Hg2 by apply grows_fresh.
      assert (holds_axes h2 il rs axes) as Hax2
        by eauto using holds_axes_grows, grows_trans.
      assert (length h2 = S (length h1)) as Hlen2.
      { unfold h2. rewrite length_insert, length_app. simpl. lia. }
      assert (h2 !! length h1 = Some (c ++ [x])) as Hcopy.
      { unfold h2. rewrite list_lookup_insert_eq; [done|]. rewrite length_app. simpl. lia. }
      assert (h2 !! cm = Some (m ++ (VList <$> ls))) as Hcm2.
      { unfold h2. rewrite list_lookup_insert_ne by lia. by rewrite lookup_app_l by lia. }
      destruct (IH (index + 1)%Z (length h1) (c ++ [x]) (m ++ (VList <$> ls)) h2 fuel)
        as (h3 & -> & Hg3 & (ls' & Hcm3 & Hls' & Hnodup' & Hfresh'));
        [done|done|done|lia|done|lia|].
      exists h3. split; [done|]. split; [eauto using grows_trans|].
      assert (∀ l, l ∈ ls → l < length h1) as Hold.
      { intros l [i' Hi']%list_elem_of_lookup.
        destruct (Forall2_lookup_l _ _ _ _ _ Hls Hi') as (combo & _ & _ & Hl').
        eauto using lookup_lt_Some. }
      assert (∀ l, l ∈ ls' → length h1 ≤ l) as Hnew.
      { intros l Hl'. specialize (Hfresh' l Hl'). destruct rest; lia. }
      exists (ls ++ ls'). split_and!.
      * by rewrite fmap_app, app_assoc.
      * rewrite (take_S_r _ _ _ Hx), bind_app. apply Forall2_app.
        -- eapply Forall2_impl; [done|]. intros l combo [? Hl']. split; [done|].
           destruct (grows_trans _ _ _ _ Hg2 Hg3) as (_ & Hf & _).
           rewrite Hf; eauto using lookup_lt_Some.
        -- simpl. rewrite app_nil_r. apply Forall2_fmap_r.
           eapply Forall2_impl; [done|]. intros l combo [? Hl']. split; [done|].
           by rewrite Hl', <-app_assoc.
      * apply NoDup_app. split_and!; [done| |done].
        intros l Hl1 Hl2. specialize (Hold l Hl1). specialize (Hnew l Hl2). lia.
      * intros l [Hl'|Hl']%elem_of_app; [by apply Hfresh|].
        specialize (Hnew l Hl'). lia.
    + split; [apply grows_refl|]. exists []. rewrite app_nil_r.
      split_and!; [done|constructor|constructor|by intros l ?%not_elem_of_nil].
    + lia.
    + exists h'. split; [done|]. split; [done|].
      rewrite Nat.max_0_r, firstn_all in Hem.
      destruct Hem as (ls & ? & ? & ? & ?). by exists ls.
Qed.

End separated.

(** X1: a call on separate objects, with any index for which the subscript
    is within [input_list], any partial combination [c] and an empty output
    list, returns, and the matrix is [c] followed by each combination of the
    axes that [axes_from] gives for the index: the axes from [index] on, or,
    for a negative index, the last [-index] axes and then all axes. *)
Theorem matrix_from_any_index h index cc il cm rs axes c rest fuel :
  separate_call h cc il cm rs axes c [] →
  axes_from axes index = Some rest → fuel_for rest ≤ fuel →
  ∃ h', create_combination_matrix fuel index cc il cm h = (Ok tt, h') ∧
        read_matrix h' cm = Some ((c ++.) <$> nested_iteration rest).
Proof.
  intros (Hax & Hcc & Hcm & Hne & Hil & Hrs) Hfrom Hfuel.
  destruct (create_combination_matrix_run il cm rs axes Hil Hrs rest index cc c [] h fuel)
    as (h' & Hrun & _ & (ls & Hout & Hls & _)); [done|done|done|done|done|done|].
  exists h'. split; [done|]. apply read_matrix_emitted. by exists ls.
Qed.

Lemma matrix_from_any_index_witness :
  ∃ h', create_combination_matrix 7 (-1) 3 0 4 example_heap = (Ok tt, h') ∧
        read_matrix h' 4 =
          Some (([] ++.) <$>
                  nested_iteration (drop 1 example_axes ++ example_axes)).
Proof.
  apply (matrix_from_any_index example_heap (-1) 3 0 4 [1; 2] example_axes []
           (drop 1 example_axes ++ example_axes) 7).
  - exact Matrix.example_separate_call.
  - reflexivity.
  - simpl. lia.
Defined.

(** X2: an index below [-len(input_list)] is out of the range of the
    subscript: the call raises [IndexError], and the store is as it was,
    nothing having been appended. *)
Theorem index_out_of_range fuel index cc il cm h items :
  h !! il = Some items → (index < - Z.of_nat (length items))%Z →
  create_combination_matrix (S fuel) index cc il cm h = (Raise IndexError, h).
Proof.
  intros Hil Hindex. rewrite create_combination_matrix_unfold, Hil.
  rewrite decide_True by lia. unfold subscript.
  rewrite decide_False by lia. by rewrite decide_False by lia.
Qed.

Lemma index_out_of_range_witness :
  create_combination_matrix 1 (-3) 3 0 4 example_heap = (Raise IndexError, example_heap).
Proof.
  apply (index_out_of_range 0 (-3) 3 0 4 example_heap [VList 1; VList 2]).
  - reflexivity.
  - simpl. lia.
Defined.

(** X3: on separate objects and with an axis to iterate over, the lists
    that the call appends to the output are pairwise different objects, and
    none of them existed before the call: no combination shares its list
    with another one, with an axis or with the partial combination. *)
Theorem combinations_are_new_objects h index cc il cm rs axes c m xs rest fuel :
  separate_call h cc il cm rs axes c m →
  axes_from axes index = Some (xs :: rest) → fuel_for (xs :: rest) ≤ fuel →
  ∃ h' ls,
    create_combination_matrix fuel index cc il cm h = (Ok tt, h') ∧
    h' !! cm = Some (m ++ (VList <$> ls)) ∧
    length ls = length (nested_iteration (xs :: rest)) ∧
    NoDup ls ∧
    ∀ l, l ∈ ls → h !! l = None ∧ is_Some (h' !! l).
Proof.
  intros (Hax & Hcc & Hcm & Hne & Hil & Hrs) Hfrom Hfuel.
  destruct (create_combination_matrix_run il cm rs axes Hil Hrs (xs :: rest)
              index cc c m h fuel)
    as (h' & Hrun & _ & (ls & Hout & Hls & Hnodup & Hfresh)); [done|done|done|done|done|done|].
  exists h', ls. split_and!; [done|done|by eapply Forall2_length|done|].
  intros l Hl. split.
  - apply lookup_ge_None. by apply Hfresh.
  - apply list_elem_of_lookup in Hl as [i Hi].
    destruct (Forall2_lookup_l _ _ _ _ _ Hls Hi) as (combo & _ & _ & Hl'). eauto.
Qed.

Lemma combinations_are_new_objects_witness :
  ∃ h' ls,
    create_combination_matrix 6 0 3 0 4 example_heap_filled = (Ok tt, h') ∧
    h' !! 4 = Some ([VList 5] ++ (VList <$> ls)) ∧
    length ls = length (nested_iteration example_axes) ∧
    NoDup ls ∧
    ∀ l, l ∈ ls → example_heap_filled !! l = None ∧ is_Some (h' !! l).
Proof.
  apply (combinations_are_new_objects example_heap_filled 0 3 0 4 [1; 2] example_axes
           [] [VList 5] _ _ 6).
  - exact Matrix.example_separate_call_filled.
  - reflexivity.
  - simpl. lia.
Defined.

(** X4: with an index at or past the end of [input_list] the call
    allocates nothing and appends the caller's [current_combination] list
    itself, not a copy: what the caller appends to that list afterwards
    shows in the matrix. *)
Theorem complete_combination_is_shared fuel index cc il cm h items c v :
  h !! il = Some items → (Z.of_nat (length items) ≤ index)%Z →
  h !! cc = Some c → h !! cm = Some [] → cm ≠ cc →
  ∃ h1 h2,
    create_combination_matrix (S fuel) index cc il cm h = (Ok tt, h1) ∧
    length h1 = length h ∧
    read_matrix h1 cm = Some [c] ∧
    py_append cc v h1 = (Ok tt, h2) ∧
    read_matrix h2 cm = Some [c ++ [v]].
Proof.
  intros Hil Hindex Hcc Hcm Hne.
  pose proof (lookup_lt_Some _ _ _ Hcc). pose proof (lookup_lt_Some _ _ _ Hcm).
  rewrite create_combination_matrix_unfold, Hil, Hcm. rewrite decide_False by lia.
  simpl. eexists _, _. split; [done|]. split; [by rewrite length_insert|].
  unfold read_matrix.
  rewrite list_lookup_insert_eq by done. simpl.
  rewrite list_lookup_insert_ne, Hcc by done. split; [done|].
  run_prims. rewrite list_lookup_insert_ne, Hcc by done. split; [done|].
  rewrite list_lookup_insert_ne by done.
  rewrite list_lookup_insert_eq by done. simpl.
  by rewrite list_lookup_insert_eq by (by rewrite length_insert).
Qed.

Lemma complete_combination_is_shared_witness :
  ∃ h1 h2,
    create_combination_matrix 1 2 3 0 4 example_heap = (Ok tt, h1) ∧
    length h1 = length example_heap ∧
    read_matrix h1 4 = Some [[]] ∧
    py_append 3 (VTuple "hip" "4.3") h1 = (Ok tt, h2) ∧
    read_matrix h2 4 = Some [[] ++ [VTuple "hip" "4.3"]].
Proof.
  apply (complete_combination_is_shared 0 2 3 0 4 example_heap [VList 1; VList 2]
           [] (VTuple "hip" "4.3")); [reflexivity|simpl; lia|reflexivity|reflexivity|lia].
Defined.

End CallFacts.

(** * The backend combination matrix *)

Module BackendMatrix.
Import Catalog Store StoreFacts.

Lemma store_rows_spec il rows :
  ∀ h rs0, h !! il = Some (VList <$> rs0) →
    ∃ h', store_rows il rows h = (Ok tt, h') ∧
          length h' = length h + length rows ∧
          h' !! il = Some (VList <$> (rs0 ++ seq (length h) (length rows))) ∧
          (∀ r, r < length h → r ≠ il → h' !! r = h !! r) ∧
          (∀ i row, rows !! i = Some row → h' !! (length h + i) = Some (tuples row)).
Proof.
  induction rows as [|row rows IH]; intros h rs0 Hil.
  - exists h. simpl. rewrite app_nil_r, Nat.add_0_r. by split_and!.
  - pose proof (lookup_lt_Some _ _ _ Hil) as Hlt.
    set (h2 := <[il := (VList <$> rs0) ++ [VList (length h)]]> (h ++ [tuples row])).
    assert (store_rows il (row :: rows) h = store_rows il rows h2) as ->.
    { simpl. run_prims. by rewrite lookup_app_l, Hil by done. }
    assert (length h2 = S (length h)) as Hlen2.
    { unfold h2. rewrite length_insert, length_app. simpl. lia. }
    destruct (IH h2 (rs0 ++ [length h])) as (h' & Hrun & Hlen & Hil' & Hframe & Hrows).
    { unfold h2. rewrite list_lookup_insert_eq by (rewrite length_app; lia).
      by rewrite fmap_app. }
    exists h'. split; [done|]. split_and!.
    + simpl. lia.
    + rewrite Hil', Hlen2. simpl. by rewrite <-app_assoc.
    + intros r Hr Hne. rewrite Hframe by lia. unfold h2.
      rewrite list_lookup_insert_ne by done. by rewrite lookup_app_l.
    + intros [|i] row' Hrow; simpl in Hrow.
      * simplify_eq. rewrite Nat.add_0_r, Hframe by lia. unfold h2.
        rewrite list_lookup_insert_ne by lia.
        by rewrite lookup_app_r, Nat.sub_diag by lia.
      * replace (length h + S i) with (length h2 + i) by lia. by apply Hrows.
Qed.

Lemma tuples_inj : Inj (=) (=) (λ entry : string * string, VTuple entry.1 entry.2).
Proof. intros [??] [??] [=]. by simplify_eq/=. Qed.

Section with_globals.
Context `{G : Globals}.

(** The run of [get_backend_combination_matrix] on any store. *)
Lemma backend_combination_matrix_run rows fuel h :
  get_backend_versions = Return rows →
  fuel_for (tuples <$> rows) ≤ fuel →
  ∃ h',
    get_backend_combination_matrix fuel h = (Ok (length h), h') ∧
    read_matrix h' (length h) = Some (nested_iteration (tuples <$> rows)) ∧
    length (nested_iteration (tuples <$> rows)) = product_of_lengths rows ∧
    ∀ r, r < length h → h' !! r = h !! r.
Proof.
  intros Hrows Hfuel. unfold get_backend_combination_matrix. rewrite Hrows.
  set (cm := length h). set (h3 := ((h ++ [[]]) ++ [[]]) ++ [[]]).
  assert (length h3 = cm + 3) as Hlen3.
  { unfold h3. rewrite !length_app. simpl. lia. }
  destruct (store_rows_spec (cm + 2) rows h3 [])
    as (h4 & Hstore & Hlen4 & Hil & Hframe & Hobjs).
  { unfold h3. rewrite lookup_app_r; rewrite !length_app; simpl; [|lia].
    by replace (cm + 2 - (length h + 1 + 1)) with 0 by lia. }
  assert (separate_call h4 (cm + 1) (cm + 2) cm (seq (cm + 3) (length rows))
            (tuples <$> rows) [] []) as Hcall.
  { split_and!.
    - split; [by rewrite Hil, Hlen3|].
      apply Forall2_same_length_lookup. split; [by rewrite length_seq, length_fmap|].
      intros i r axis [-> Hi]%lookup_seq. rewrite list_lookup_fmap.
      intros (row & Hrow & ->)%fmap_Some. rewrite <-Hlen3. by apply Hobjs.
    - rewrite Hframe by lia. unfold h3.
      rewrite lookup_app_l by (rewrite !length_app; simpl; lia).
      rewrite lookup_app_r by (rewrite !length_app; simpl; lia).
      rewrite length_app. simpl. by replace (cm + 1 - (length h + 1)) with 0 by lia.
    - rewrite Hframe by lia. unfold h3.
      rewrite !lookup_app_l by (rewrite ?length_app; simpl; lia).
      by rewrite lookup_app_r, Nat.sub_diag by lia.
    - lia.
    - lia.
    - intros [? _]%elem_of_seq. lia. }
  destruct (Matrix.matrix_of_call _ _ _ _ _ _ _ Hcall Hfuel) as (h' & Hrun & Hread).
  exists h'. split_and!.
  - run_prims. fold cm. rewrite !length_app. simpl.
    replace (length h + 1) with (cm + 1) by (unfold cm; lia).
    replace (cm + 1 + 1) with (cm + 2) by lia.
    fold h3. rewrite Hstore.
    by rewrite Hrun.
  - done.
  - rewrite length_nested_iteration. unfold product_of_lengths.
    clear. induction rows as [|row rows IH]; [done|].
    rewrite fmap_cons. cbn [foldr]. rewrite IH. unfold tuples. by rewrite length_fmap.
  - intros r Hr.
    pose proof (create_combination_matrix_grows fuel 0 (cm + 1) (cm + 2) cm h4)
      as (_ & Hgrows & _).
    rewrite Hrun in Hgrows. simpl in Hgrows.
    rewrite Hgrows, Hframe by (unfold cm; lia). unfold h3.
    by rewrite !lookup_app_l by (rewrite ?length_app; simpl; lia).
Qed.

(** X5: whatever objects the store holds, with enough fuel
    [get_backend_combination_matrix] returns a new list; the matrix it
    refers to is the nested iteration over the sequences that
    [get_backend_versions] returns, as many combinations as the product of
    their lengths; and every object that existed before the call is as it
    was. *)
Theorem backend_combination_matrix_spec rows fuel h :
  get_backend_versions = Return rows →
  fuel_for (tuples <$> rows) ≤ fuel →
  ∃ h',
    get_backend_combination_matrix fuel h = (Ok (length h), h') ∧
    read_matrix h' (length h) = Some (nested_iteration (tuples <$> rows)) ∧
    length (nested_iteration (tuples <$> rows)) = product_of_lengths rows ∧
    ∀ r, r < length h → h' !! r = h !! r.
Proof. apply backend_combination_matrix_run. Qed.

End with_globals.
End BackendMatrix.

(** * More on the functions that read the catalog *)

Module CatalogMore.
Import Catalog CatalogFacts.

Lemma foldl_dict_lookup_other {V : Type} (items : list (string * V))
    (d : gmap string V) k :
  k ∉ items.*1 →
  foldl (λ d item, <[item.1 := item.2]> d) d items !! k = d !! k.
Proof.
  revert d. induction items as [|[k' v'] items IH]; intros d Hk; [done|].
  simpl in *. apply not_elem_of_cons in Hk as [Hne Hk].
  rewrite IH by done. by rewrite lookup_insert_ne.
Qed.

(** In a display without equal keys, every key has the value written for
    it, and no other key is in the dictionary. *)
Lemma dict_display_lookup {V : Type} (items : list (string * V)) k v :
  NoDup items.*1 → (k, v) ∈ items → dict_display items !! k = Some v.
Proof.
  unfold dict_display. generalize (∅ : gmap string V).
  induction items as [|[k' v'] items IH]; intros d Hnodup Hin.
  - by apply not_elem_of_nil in Hin.
  - simpl in *. apply NoDup_cons in Hnodup as [Hk' Hnodup].
    apply elem_of_cons in Hin as [[= -> ->]|Hin].
    + rewrite foldl_dict_lookup_other by done. by rewrite lookup_insert_eq.
    + by apply IH.
Qed.

Lemma dict_display_lookup_None {V : Type} (items : list (string * V)) k :
  k ∉ items.*1 → dict_display items !! k = None.
Proof. intros Hk. unfold dict_display. by rewrite foldl_dict_lookup_other. Qed.

Section with_globals.
Context `{G : Globals}.

(** The inner loop of [get_compiler_versions], as what it appends. *)
Lemma compilers_loop_formula (clang_cuda : bool) (name : string)
    (versions : list string) (compilers : list (string * string)) :
  foldl (λ (compilers : list (string * string)) (version : string),
           if clang_cuda && bool_decide (name = CLANG)
           then (compilers ++ [(name, version)]) ++ [(CLANG_CUDA, version)]
           else compilers ++ [(name, version)])
        compilers versions =
  compilers ++
    (versions ≫= λ v, (name, v) ::
       if clang_cuda && bool_decide (name = CLANG) then [(CLANG_CUDA, v)] else []).
Proof.
  revert compilers. induction versions as [|v versions IH]; intros compilers.
  - simpl. by rewrite app_nil_r.
  - cbn [foldl]. rewrite IH. destruct (_ && _); simpl; by rewrite <-!app_assoc.
Qed.

Lemma compiler_versions_formula clang_cuda gcc clang nvcc hipcc :
  sw_versions !! GCC = Some gcc → sw_versions !! CLANG = Some clang →
  sw_versions !! NVCC = Some nvcc → sw_versions !! HIPCC = Some hipcc →
  get_compiler_versions clang_cuda =
    Return ([(GCC, gcc); (CLANG, clang); (NVCC, nvcc); (HIPCC, hipcc)] ≫= λ family,
              family.2 ≫= λ v, (family.1, v) ::
                if clang_cuda && bool_decide (family.1 = CLANG)
                then [(CLANG_CUDA, v)] else []).
Proof.
  intros Hgcc Hclang Hnvcc Hhipcc. unfold get_compiler_versions, dict_getitem.
  cbn [for_each]. rewrite Hgcc, Hclang, Hnvcc, Hhipcc.
  cbn [mbind result_bind mret result_ret]. cbv zeta.
  rewrite !compilers_loop_formula. simpl. by rewrite !app_nil_r, <-!app_assoc.
Qed.

Lemma backend_versions_formula names nvcc hipcc :
  sw_versions !! BACKENDS = Some names →
  sw_versions !! NVCC = Some nvcc → sw_versions !! HIPCC = Some hipcc →
  get_backend_versions =
    Return ((λ b, (b, OFF) ::
               if bool_decide (b = ALPAKA_ACC_GPU_CUDA_ENABLE) then (b,.) <$> nvcc
               else if bool_decide (b = ALPAKA_ACC_GPU_HIP_ENABLE) then (b,.) <$> hipcc
               else [(b, ON)]) <$> names).
Proof.
  intros Hnames Hnvcc Hhipcc. unfold get_backend_versions.
  assert (dict_getitem sw_versions BACKENDS = Return names) as ->.
  { unfold dict_getitem. by rewrite Hnames. }
  exact (backends_loop nvcc hipcc names [] Hnvcc Hhipcc).
Qed.

(** X6: whatever the values of the imported names, equal ones included,
    the functions without a catalog argument return: every key they look
    up is written in the display of [sw_versions], so that no [KeyError]
    can come from them. *)
Theorem catalog_functions_return clang_cuda :
  (∃ compilers, get_compiler_versions clang_cuda = Return compilers) ∧
  (∃ backends, get_backend_versions = Return backends) ∧
  (∃ matrix, get_backend_single_matrix = Return matrix).
Proof.
  destruct (sw_versions_is_Some GCC) as [gcc Hgcc]; [set_solver|].
  destruct (sw_versions_is_Some CLANG) as [clang Hclang]; [set_solver|].
  destruct (sw_versions_is_Some NVCC) as [nvcc Hnvcc]; [set_solver|].
  destruct (sw_versions_is_Some HIPCC) as [hipcc Hhipcc]; [set_solver|].
  destruct (sw_versions_is_Some BACKENDS) as [names Hnames]; [set_solver|].
  split_and!.
  - rewrite (compiler_versions_formula clang_cuda gcc clang nvcc hipcc) by done. eauto.
  - rewrite (backend_versions_formula names nvcc hipcc) by done. eauto.
  - unfold get_backend_single_matrix, dict_getitem. rewrite Hnvcc, Hhipcc. simpl. eauto.
Qed.

(** X7: with [clang_cuda] false, [get_compiler_versions] returns the
    entries of GCC, CLANG, NVCC and HIPCC, in this order, each family in the
    order of its versions in the catalog, and nothing else. *)
Theorem compiler_versions_plain gcc clang nvcc hipcc :
  sw_versions !! GCC = Some gcc → sw_versions !! CLANG = Some clang →
  sw_versions !! NVCC = Some nvcc → sw_versions !! HIPCC = Some hipcc →
  get_compiler_versions false =
    Return (((GCC,.) <$> gcc) ++ ((CLANG,.) <$> clang) ++
            ((NVCC,.) <$> nvcc) ++ ((HIPCC,.) <$> hipcc)).
Proof.
  intros Hgcc Hclang Hnvcc Hhipcc.
  rewrite (compiler_versions_formula false gcc clang nvcc hipcc) by done.
  assert (∀ (name : string) (versions : list string),
    (versions ≫= λ v, [(name, v)]) = (name,.) <$> versions) as Hfamily.
  { intros name versions. induction versions as [|v versions IH]; [done|].
    csimpl. by rewrite IH. }
  csimpl. by rewrite !Hfamily, app_nil_r.
Qed.

(** X8: the entries of [CLANG_CUDA] are all that the flag adds.  Taking
    them out of the list returned with [clang_cuda] true gives the list
    returned with [clang_cuda] false; and when no other compiler is named as
    CLANG is, the flag adds one entry per version of CLANG. *)
Theorem compiler_versions_flag :
  CLANG_CUDA ∉ [GCC; CLANG; NVCC; HIPCC] →
  ∃ derived plain,
    get_compiler_versions true = Return derived ∧
    get_compiler_versions false = Return plain ∧
    filter (λ entry, entry.1 ≠ CLANG_CUDA) derived = plain ∧
    (CLANG ∉ [GCC; NVCC; HIPCC] →
     ∀ clang, sw_versions !! CLANG = Some clang →
       length derived = length plain + length clang).
Proof.
  intros Hcuda.
  destruct (sw_versions_is_Some GCC) as [gcc Hgcc]; [set_solver|].
  destruct (sw_versions_is_Some CLANG) as [clang Hclang]; [set_solver|].
  destruct (sw_versions_is_Some NVCC) as [nvcc Hnvcc]; [set_solver|].
  destruct (sw_versions_is_Some HIPCC) as [hipcc Hhipcc]; [set_solver|].
  rewrite (compiler_versions_formula true gcc clang nvcc hipcc) by done.
  rewrite (compiler_versions_formula false gcc clang nvcc hipcc) by done.
  eexists _, _. split; [done|]. split; [done|].
  assert (∀ (name : string) (versions : list string), name ≠ CLANG_CUDA →
    filter (λ entry : string * string, entry.1 ≠ CLANG_CUDA)
      (versions ≫= λ v, (name, v) ::
         if bool_decide (name = CLANG) then [(CLANG_CUDA, v)] else []) =
    (versions ≫= λ v, [(name, v)])) as Hfilter.
  { intros name versions Hname. induction versions as [|v versions IH]; [done|].
    csimpl. rewrite filter_cons_True by done. rewrite filter_app, IH. do 2 f_equal.
    case_bool_decide; [|done]. by rewrite filter_cons_False by (simpl; tauto). }
  assert (∀ (name : string) (versions : list string),
    length (versions ≫= λ v, (name, v) ::
         if bool_decide (name = CLANG) then [(CLANG_CUDA, v)] else []) =
    length versions +
      (if bool_decide (name = CLANG) then length versions else 0)) as Hcount.
  { intros name versions. induction versions as [|v versions IH].
    - by case_bool_decide.
    - csimpl. rewrite length_app, IH. case_bool_decide; simpl; lia. }
  assert (∀ (name : string) (versions : list string),
    length (versions ≫= λ v, [(name, v)]) = length versions) as Hplain.
  { intros name versions. induction versions as [|v versions IH]; [done|].
    csimpl. by rewrite IH. }
  split.
  - csimpl. rewrite !filter_app, !Hfilter; [done|set_solver..].
  - intros Hclang' clang' Heq. assert (clang' = clang) as -> by congruence.
    csimpl. rewrite !length_app, !Hcount, !Hplain. simpl.
    rewrite (bool_decide_eq_false_2 (GCC = CLANG)) by set_solver.
    rewrite (bool_decide_eq_false_2 (NVCC = CLANG)) by set_solver.
    rewrite (bool_decide_eq_false_2 (HIPCC = CLANG)) by set_solver.
    rewrite (bool_decide_eq_true_2 (CLANG = CLANG)) by done. lia.
Qed.

(** X9: for a key of the catalog, [get_sw_tuple_list] returns the
    versions of that key in catalog order, each paired with the name; it
    returns an empty list only for a key without versions. *)
Theorem sw_tuple_list_known name versions :
  sw_versions !! name = Some versions →
  get_sw_tuple_list name = Return ((name,.) <$> versions) ∧
  (get_sw_tuple_list name = Return [] → versions = []).
Proof.
  intros Hname. unfold get_sw_tuple_list, dict_getitem. rewrite Hname. simpl.
  rewrite foldl_snoc_pairs. split; [done|].
  intros [= Hnil]. by apply fmap_nil_inv in Hnil.
Qed.

(** X10: in what [get_backend_versions] returns, the i-th sequence is the
    one of the i-th name in the [BACKENDS] entry: all its entries carry
    that name. *)
Theorem backend_versions_named names :
  sw_versions !! BACKENDS = Some names →
  ∃ backends,
    get_backend_versions = Return backends ∧
    Forall2 (λ b states, Forall (λ entry, entry.1 = b) states) names backends.
Proof.
  intros Hnames.
  destruct (sw_versions_is_Some NVCC) as [nvcc Hnvcc]; [set_solver|].
  destruct (sw_versions_is_Some HIPCC) as [hipcc Hhipcc]; [set_solver|].
  rewrite (backend_versions_formula names nvcc hipcc) by done.
  eexists. split; [done|]. apply Forall2_fmap_r, Forall_Forall2_diag, Forall_forall.
  intros b _. constructor; [done|].
  repeat case_bool_decide; try (apply Forall_fmap, Forall_forall; by intros); by repeat constructor.
Qed.

(** The sequences of states have no entry twice, under what the theorem
    below asks of [OFF]. *)
Lemma states_NoDup nvcc hipcc :
  sw_versions !! NVCC = Some nvcc → sw_versions !! HIPCC = Some hipcc →
  OFF ≠ ON → OFF ∉ nvcc → OFF ∉ hipcc → NoDup nvcc → NoDup hipcc →
  ∃ backends, get_backend_versions = Return backends ∧ Forall NoDup backends.
Proof.
  intros Hnvcc Hhipcc Hon Hoff1 Hoff2 Hnodup1 Hnodup2.
  destruct (sw_versions_is_Some BACKENDS) as [names Hnames]; [set_solver|].
  rewrite (backend_versions_formula names nvcc hipcc) by done.
  eexists. split; [done|]. apply Forall_fmap, Forall_forall. intros b _. simpl.
  assert (∀ versions : list string, OFF ∉ versions → NoDup versions →
    NoDup ((b, OFF) :: ((b,.) <$> versions))) as Hstates.
  { intros versions Hoff Hnodup. constructor.
    - intros (v & [= <-] & Hv)%list_elem_of_fmap. done.
    - apply (NoDup_fmap_2 _). done. }
  repeat case_bool_decide; [by apply Hstates..|].
  apply NoDup_cons. split; [|apply NoDup_singleton].
  intros [= ?]%list_elem_of_singleton. done.
Qed.

(** X11: when [OFF] is not [ON] and is not a version of NVCC or of HIPCC,
    and these two list no version twice, no sequence that
    [get_backend_versions] returns has an entry twice. *)
Theorem backend_versions_NoDup nvcc hipcc :
  sw_versions !! NVCC = Some nvcc → sw_versions !! HIPCC = Some hipcc →
  OFF ≠ ON → OFF ∉ nvcc → OFF ∉ hipcc → NoDup nvcc → NoDup hipcc →
  ∃ backends, get_backend_versions = Return backends ∧ Forall NoDup backends.
Proof. apply states_NoDup. Qed.

(** X13: [get_sw_tuple_list] raises exactly for the names that are not
    among the ten keys written in [sw_versions], and then it raises the
    [KeyError] of that name. *)
Theorem sw_tuple_list_raises_iff name :
  (∃ e, get_sw_tuple_list name = Raised e) ↔
  name ∉ [GCC; CLANG; NVCC; HIPCC; BACKENDS; UBUNTU; CMAKE; BOOST; ALPAKA;
          CXX_STANDARD].
Proof.
  split.
  - intros [e He] Hin. apply sw_versions_is_Some in Hin as [versions Hin].
    unfold get_sw_tuple_list, dict_getitem in He. by rewrite Hin in He.
  - intros Hout. exists (KeyError name).
    unfold get_sw_tuple_list, dict_getitem, sw_versions.
    by rewrite dict_display_lookup_None.
Qed.

(** X14: when the ten keys of [sw_versions] are pairwise different, no
    entry of the display replaces another: the compilers and the backends
    are looked up with the lists written for them. *)
Theorem sw_versions_entries :
  NoDup [GCC; CLANG; NVCC; HIPCC; BACKENDS; UBUNTU; CMAKE; BOOST; ALPAKA;
         CXX_STANDARD] →
  sw_versions !! GCC = Some gcc_versions ∧
  sw_versions !! CLANG = Some clang_versions ∧
  sw_versions !! NVCC = Some nvcc_versions ∧
  sw_versions !! HIPCC = Some hipcc_versions ∧
  sw_versions !! BACKENDS = Some backend_names.
Proof.
  intros Hnodup. unfold sw_versions.
  split_and!; (apply dict_display_lookup; [exact Hnodup|set_solver]).
Qed.

End with_globals.

Lemma sw_versions_entries_witness :
  sw_versions (G := example_globals) !! "GCC" = Some gcc_versions ∧
  sw_versions (G := example_globals) !! "CLANG" = Some clang_versions ∧
  sw_versions (G := example_globals) !! "NVCC" = Some nvcc_versions ∧
  sw_versions (G := example_globals) !! "HIPCC" = Some hipcc_versions ∧
  sw_versions (G := example_globals) !! "BACKENDS"
    = Some (backend_names (G := example_globals)).
Proof. apply (sw_versions_entries (G := example_globals)). compute_done. Defined.

Lemma compiler_versions_plain_witness :
  get_compiler_versions (G := example_globals) false =
    Return ((("GCC",.) <$> gcc_versions) ++ (("CLANG",.) <$> clang_versions) ++
            (("NVCC",.) <$> nvcc_versions) ++ (("HIPCC",.) <$> hipcc_versions)).
Proof.
  apply (compiler_versions_plain (G := example_globals)
           gcc_versions clang_versions nvcc_versions hipcc_versions); reflexivity.
Defined.

Lemma compiler_versions_flag_witness :
  ∃ derived plain,
    get_compiler_versions (G := example_globals) true = Return derived ∧
    get_compiler_versions (G := example_globals) false = Return plain ∧
    filter (λ entry, entry.1 ≠ "CLANG_CUDA") derived = plain ∧
    length derived = length plain + length clang_versions.
Proof.
  destruct (compiler_versions_flag (G := example_globals))
    as (derived & plain & Hderived & Hplain & Hfilter & Hcount); [compute_done|].
  exists derived, plain. split_and!; [done..|].
  apply Hcount; [compute_done|reflexivity].
Defined.

Lemma sw_tuple_list_known_witness :
  get_sw_tuple_list (G := example_globals) "CXX_STANDARD" =
    Return (("CXX_STANDARD",.) <$> ["14"; "17"; "20"]) ∧
  (get_sw_tuple_list (G := example_globals) "CXX_STANDARD" = Return [] →
   ["14"; "17"; "20"] = []).
Proof.
  apply (sw_tuple_list_known (G := example_globals) "CXX_STANDARD"). reflexivity.
Defined.

Lemma backend_versions_named_witness :
  ∃ backends,
    get_backend_versions (G := example_globals) = Return backends ∧
    Forall2 (λ b states, Forall (λ entry, entry.1 = b) states)
      (backend_names (G := example_globals)) backends.
Proof.
  apply (backend_versions_named (G := example_globals)). reflexivity.
Defined.

Lemma backend_versions_NoDup_witness :
  ∃ backends,
    get_backend_versions (G := example_globals) = Return backends ∧
    Forall NoDup backends.
Proof.
  apply (backend_versions_NoDup (G := example_globals) nvcc_versions hipcc_versions);
    [reflexivity|reflexivity|discriminate|compute_done..].
Defined.

End CatalogMore.

(** * From the catalog to the matrix *)

Module EndToEnd.
Import Catalog Store StoreFacts CatalogMore BackendMatrix.

(** X12: when [OFF] is not [ON] and is not a version of NVCC or of HIPCC,
    and these two list no version twice, the matrix that
    [get_backend_combination_matrix] returns, given enough fuel, has no
    combination twice. *)
Theorem backend_combination_matrix_NoDup `{G : Globals} nvcc hipcc :
  sw_versions !! NVCC = Some nvcc → sw_versions !! HIPCC = Some hipcc →
  OFF ≠ ON → OFF ∉ nvcc → OFF ∉ hipcc → NoDup nvcc → NoDup hipcc →
  ∃ rows,
    get_backend_versions = Return rows ∧
    ∀ fuel h, fuel_for (tuples <$> rows) ≤ fuel →
      ∃ h' matrix,
        get_backend_combination_matrix fuel h = (Ok (length h), h') ∧
        read_matrix h' (length h) = Some matrix ∧
        length matrix = product_of_lengths rows ∧
        NoDup matrix.
Proof.
  intros Hnvcc Hhipcc Hon Hoff1 Hoff2 Hnodup1 Hnodup2.
  destruct (states_NoDup nvcc hipcc) as (rows & Hrows & Hnodup); [done..|].
  exists rows. split; [done|]. intros fuel h Hfuel.
  destruct (backend_combination_matrix_run rows fuel h Hrows Hfuel)
    as (h' & Hrun & Hread & Hlen & _).
  exists h', (nested_iteration (tuples <$> rows)). split_and!; [done..|].
  apply NoDup_nested_iteration, Forall_fmap.
  eapply Forall_impl; [done|]. intros row Hrow.
  by apply (NoDup_fmap_2 _ (Inj0 := tuples_inj)).
Qed.

Lemma backend_combination_matrix_spec_witness :
  ∃ h',
    get_backend_combination_matrix (H := example_globals) 13 [] = (Ok 0, h') ∧
    read_matrix h' 0 = Some (nested_iteration (tuples <$> example_rows)) ∧
    length (nested_iteration (tuples <$> example_rows)) = product_of_lengths example_rows ∧
    ∀ r, r < 0 → h' !! r = ([] : list (list value)) !! r.
Proof.
  apply (backend_combination_matrix_spec (G := example_globals) example_rows 13 []).
  - reflexivity.
  - vm_compute. lia.
Defined.

Lemma backend_combination_matrix_NoDup_witness :
  ∃ h' matrix,
    get_backend_combination_matrix (H := example_globals) 13 [] = (Ok 0, h') ∧
    read_matrix h' 0 = Some matrix ∧
    length matrix = 180 ∧
    NoDup matrix.
Proof.
  destruct (backend_combination_matrix_NoDup (G := example_globals)
              nvcc_versions hipcc_versions) as (rows & Hrows & Hrun);
    [reflexivity|reflexivity|discriminate|compute_done..|].
  assert (get_backend_versions (G := example_globals) = Return example_rows) as Heq
    by reflexivity.
  assert (rows = example_rows) as -> by congruence.
  apply (Hrun 13 []). vm_compute. lia.
Defined.

End EndToEnd.
